(** * The Amino Gym service worker: request interception and caching

    A shallow embedding of the worker script (install / activate / fetch /
    push listeners and the two caching strategies) and the properties of
    its specification.

    Platform objects are modelled by what the script observes of them:
    - a [Response] by its status, body and headers;
    - a [Cache] as a finite map from the request URL to the stored
      response (every intercepted request is a GET, the Vary dimension of
      the platform's matching is not modelled);
    - [caches] (the CacheStorage) as the list of named caches in creation
      order, which is the order [caches.keys()] reports and
      [caches.match] searches;
    - asynchronous code as a state-and-exception monad over a [World]
      that also records the operations that were started but not awaited. *)

From Stdlib Require Import ZArith Bool Lia.
From stdpp Require Import base option list strings pretty gmap.

Open Scope string_scope.
Open Scope Z_scope.
Open Scope list_scope.

(** ** Constants of the script *)

Definition CACHE_NAME : string := "amino-gym-v2".
Definition STATIC_CACHE : string := "amino-gym-static-v2".
Definition DYNAMIC_CACHE : string := "amino-gym-dynamic-v2".
Definition IMAGE_CACHE : string := "amino-gym-images-v2".

Definition CRITICAL_RESOURCES : list string :=
  ["/"; "/home"; "/login"; "/yacin-gym-logo.png"; "/success-sound.mp3"].

Definition STATIC_ASSETS : list string := ["/manifest.json"].

(** The array literal tested with [includes] in the activate listener. *)
Definition current_caches : list string :=
  [CACHE_NAME; STATIC_CACHE; DYNAMIC_CACHE; IMAGE_CACHE].

(** ** Requests and responses *)

Record URL := mkURL { origin : string; pathname : string; search : string }.

Definition href (u : URL) : string := origin u +:+ pathname u +:+ search u.

Record Request := mkRequest {
  method : string;
  url : URL;
  destination : string;
  mode : string
}.

Record Response := mkResponse {
  status : Z;
  body : string;
  headers : gmap string string
}.

(** [response.ok]: the status is in the range 200-299. *)
Definition ok (r : Response) : bool := (200 <=? status r) && (status r <=? 299).

Definition clone (r : Response) : Response := r.

(** [new Response("Offline", { status: 503 })] *)
Definition offline_response : Response :=
  {| status := 503; body := "Offline"; headers := ∅ |}.

(** *** What the platform's cache accepts

    [cache.put] rejects a response of status 206 and a response whose
    Vary header has [*] among its field values; it then stores
    nothing. [cache.addAll] rejects these too, besides every response
    that is not ok. The requests written here are GET requests to the
    worker's pages and resources: the listener passes on no other
    method. *)

Definition is_space (c : Ascii.ascii) : bool :=
  String.eqb (String c EmptyString) " " ||
  Ascii.eqb c (Ascii.ascii_of_nat 9).

Fixpoint only_spaces (s : string) : bool :=
  match s with
  | EmptyString => true
  | String c s' => is_space c && only_spaces s'
  end.

(** A field value that is [*], whitespace around it aside. *)
Fixpoint is_star_field (s : string) : bool :=
  match s with
  | EmptyString => false
  | String c s' =>
      if is_space c then is_star_field s'
      else String.eqb (String c EmptyString) "*" && only_spaces s'
  end.

(** The comma-separated field values of a header. *)
Fixpoint field_values (s : string) : list string :=
  match s with
  | EmptyString => [EmptyString]
  | String c s' =>
      if String.eqb (String c EmptyString) "," then EmptyString :: field_values s'
      else match field_values s' with
           | h :: t => String c h :: t
           | [] => [String c EmptyString]
           end
  end.

Definition vary_star (r : Response) : bool :=
  match headers r !! "vary" with
  | Some v => existsb is_star_field (field_values v)
  | None => false
  end.

Definition put_accepts (r : Response) : bool :=
  negb (status r =? 206) && negb (vary_star r).

(** ** The fetch listener's classification *)

Inductive ResourceClass := API | Image | StaticAsset | Document.

#[global] Instance ResourceClass_eq_dec : EqDecision ResourceClass.
Proof. solve_decision. Defined.

(** Whether the rest of the input, from some position on, is matched by
    [\.(js|css|woff2?)$]. *)
Definition static_ext_here (s : string) : bool :=
  String.eqb s ".js" || String.eqb s ".css" ||
  String.eqb s ".woff" || String.eqb s ".woff2".

(** [pathname.match(/\.(js|css|woff2?)$/)]: the pattern is not anchored on
    the left, so every start position is tried. *)
Fixpoint match_static_ext (s : string) : bool :=
  static_ext_here s ||
  match s with
  | EmptyString => false
  | String _ s' => match_static_ext s'
  end.

(** The if-chain of the fetch listener; [None] is the early [return] that
    leaves the request to the browser. *)
Definition classify (request : Request) : option ResourceClass :=
  if negb (String.eqb (method request) "GET") then None
  else if String.prefix "/api/" (pathname (url request)) then Some API
  else if String.eqb (destination request) "image" then Some Image
  else if match_static_ext (pathname (url request)) then Some StaticAsset
  else Some Document.

Inductive Strategy := NetworkFirst | CacheFirst.

(** The strategy and cache name each branch passes to [respondWith]. *)
Definition dispatch (c : ResourceClass) : Strategy * string :=
  match c with
  | API => (NetworkFirst, DYNAMIC_CACHE)
  | Image => (CacheFirst, IMAGE_CACHE)
  | StaticAsset => (CacheFirst, STATIC_CACHE)
  | Document => (NetworkFirst, CACHE_NAME)
  end.

(** The classification rules as the specification words them: a path
    "ends in" one of four suffixes, a path "has prefix" /api/. *)
Definition has_suffix (suf s : string) : Prop := ∃ p, s = p +:+ suf.
Definition has_prefix (pre s : string) : Prop := ∃ t, s = pre +:+ t.

Definition static_suffix (s : string) : Prop :=
  has_suffix ".js" s ∨ has_suffix ".css" s ∨
  has_suffix ".woff" s ∨ has_suffix ".woff2" s.

Inductive classified (request : Request) : option ResourceClass → Prop :=
  | rule_bypass :
      method request ≠ "GET" → classified request None
  | rule_api :
      method request = "GET" →
      has_prefix "/api/" (pathname (url request)) →
      classified request (Some API)
  | rule_image :
      method request = "GET" →
      ¬ has_prefix "/api/" (pathname (url request)) →
      destination request = "image" →
      classified request (Some Image)
  | rule_static :
      method request = "GET" →
      ¬ has_prefix "/api/" (pathname (url request)) →
      destination request ≠ "image" →
      static_suffix (pathname (url request)) →
      classified request (Some StaticAsset)
  | rule_document :
      method request = "GET" →
      ¬ has_prefix "/api/" (pathname (url request)) →
      destination request ≠ "image" →
      ¬ static_suffix (pathname (url request)) →
      classified request (Some Document).

(** ** The cache storage *)

Abbreviation Cache := (gmap string Response).

(** Named caches in creation order; names are unique. *)
Definition CacheStorage : Type := list (string * Cache).

(** The key under which a request is stored and matched. *)
Definition request_key (request : Request) : string := href (url request).

Definition storage_keys (st : CacheStorage) : list string := st.*1.

Fixpoint storage_cache (name : string) (st : CacheStorage) : option Cache :=
  match st with
  | [] => None
  | (n, c) :: st' => if decide (n = name) then Some c else storage_cache name st'
  end.

(** [caches.open(name)] creates the cache when it does not exist yet. *)
Definition storage_open (name : string) (st : CacheStorage) : CacheStorage :=
  match storage_cache name st with
  | Some _ => st
  | None => st ++ [(name, ∅)]
  end.

Definition storage_delete (name : string) (st : CacheStorage) : CacheStorage :=
  filter (λ p, p.1 ≠ name) st.

(** [caches.match(key)]: the caches are searched in creation order and the
    first entry found is the answer. *)
Fixpoint storage_match (key : string) (st : CacheStorage) : option Response :=
  match st with
  | [] => None
  | (_, c) :: st' =>
      match c !! key with
      | Some r => Some r
      | None => storage_match key st'
      end
  end.

(** The same search, also telling in which cache the entry was found. *)
Fixpoint storage_find (key : string) (st : CacheStorage)
  : option (string * Response) :=
  match st with
  | [] => None
  | (n, c) :: st' =>
      match c !! key with
      | Some r => Some (n, r)
      | None => storage_find key st'
      end
  end.

(** [cache.put(key, response)] on the cache called [name]; a write
    overwrites the entry of that key. *)
Fixpoint storage_put (name key : string) (r : Response) (st : CacheStorage)
  : CacheStorage :=
  match st with
  | [] => []
  | (n, c) :: st' =>
      if decide (n = name) then (n, <[key := r]> c) :: st'
      else (n, c) :: storage_put name key r st'
  end.

Definition storage_put_all (name : string) (entries : list (string * Response))
    (st : CacheStorage) : CacheStorage :=
  foldl (λ acc e, storage_put name e.1 e.2 acc) st entries.

(** ** Values of a parsed push payload *)

#[local] Unset Elimination Schemes.
Inductive Json :=
  | JNull
  | JBool (b : bool)
  | JNum (z : Z)
  | JStr (s : string)
  | JArr (items : list Json)
  | JObj (fields : list (string * Json)).
#[local] Set Elimination Schemes.

(** Truthiness as [||] tests it. *)
Definition json_truthy (v : Json) : bool :=
  match v with
  | JNull => false
  | JBool b => b
  | JNum z => negb (z =? 0)
  | JStr s => negb (String.eqb s "")
  | JArr _ | JObj _ => true
  end.

Fixpoint string_chars (s : string) : list Json :=
  match s with
  | EmptyString => []
  | String a s' => JStr (String a EmptyString) :: string_chars s'
  end.

Definition indexed (l : list Json) : list (string * Json) :=
  imap (λ i v, (pretty i, v)) l.

(** The own enumerable properties that an object spread copies. *)
Definition own_properties (v : Json) : gmap string Json :=
  match v with
  | JObj fields => list_to_map (reverse fields)
  | JArr items => list_to_map (indexed items)
  | JStr s => list_to_map (indexed (string_chars s))
  | JNull | JBool _ | JNum _ => ∅
  end.

(** [{ ...a, ...v }] *)
Definition spread (a : gmap string Json) (v : Json) : gmap string Json :=
  own_properties v ∪ a.

Record NotificationAction := mkAction {
  action : string;
  action_title : string;
  action_icon : option string
}.

Record NotificationData := mkNotificationData {
  dateOfArrival : Z;
  primaryKey : Z;
  data_url : Json
}.

Record NotificationOptions := mkOptions {
  n_body : option Json;
  n_icon : option Json;
  n_badge : option Json;
  n_vibrate : list Z;
  n_data : NotificationData;
  n_actions : list NotificationAction;
  n_requireInteraction : bool;
  n_silent : bool
}.

Record PushMessageData := mkPushData {
  text : string;            (* event.data.text() *)
  json : option Json        (* event.data.json(); None when parsing throws *)
}.

Record PushEvent := mkPushEvent { data : option PushMessageData }.

(** ** Asynchronous computations *)

Inductive Error := NetworkError | TypeError.

(** Operations that are started and not awaited. *)
Inductive Task :=
  | PutTask (cacheName key : string) (response : Response)
  | RefetchTask (request : Request) (cacheName : string).

Inductive Effect :=
  | SkipWaiting
  | ClientsClaim
  | ShowNotification (title : option Json) (options : NotificationOptions).

Record World := mkWorld {
  storage : CacheStorage;
  spawned : list Task;
  effects : list Effect
}.

Definition with_storage (f : CacheStorage → CacheStorage) (w : World) : World :=
  {| storage := f (storage w); spawned := spawned w; effects := effects w |}.

Inductive Outcome (A : Type) :=
  | Fulfilled (a : A)
  | Rejected (e : Error).
Arguments Fulfilled {A} a.
Arguments Rejected {A} e.

Definition Async (A : Type) : Type := World → Outcome A * World.

#[global] Instance Async_ret : MRet Async := λ A a w, (Fulfilled a, w).

#[global] Instance Async_bind : MBind Async := λ A B f m w,
  match m w with
  | (Fulfilled a, w') => f a w'
  | (Rejected e, w') => (Rejected e, w')
  end.

Definition throw {A} (e : Error) : Async A := λ w, (Rejected e, w).

Definition try_catch {A} (m : Async A) (handler : Error → Async A) : Async A :=
  λ w, match m w with
       | (Fulfilled a, w') => (Fulfilled a, w')
       | (Rejected e, w') => handler e w'
       end.

Definition spawn (t : Task) : Async unit := λ w,
  (Fulfilled tt,
   {| storage := storage w; spawned := spawned w ++ [t]; effects := effects w |}).

Definition emit (e : Effect) : Async unit := λ w,
  (Fulfilled tt,
   {| storage := storage w; spawned := spawned w; effects := effects w ++ [e] |}).

Definition caches_open (name : string) : Async string := λ w,
  (Fulfilled name, with_storage (storage_open name) w).

Definition caches_keys : Async (list string) := λ w,
  (Fulfilled (storage_keys (storage w)), w).

Definition caches_delete (name : string) : Async bool := λ w,
  (Fulfilled (bool_decide (is_Some (storage_cache name (storage w)))),
   with_storage (storage_delete name) w).

Definition caches_match (key : string) : Async (option Response) := λ w,
  (Fulfilled (storage_match key (storage w)), w).

(** [Promise.all] of two promises: both computations run, the result is
    rejected when one of them is. *)
Definition Promise_all2 {A B} (p : Async A) (q : Async B) : Async (A * B) := λ w,
  let '(oa, w1) := p w in
  let '(ob, w2) := q w1 in
  (match oa, ob with
   | Fulfilled a, Fulfilled b => Fulfilled (a, b)
   | Rejected e, _ => Rejected e
   | _, Rejected e => Rejected e
   end, w2).

Fixpoint Promise_all {A} (ps : list (Async A)) : Async (list A) :=
  match ps with
  | [] => mret []
  | p :: ps' => λ w,
      let '(oa, w1) := p w in
      let '(ol, w2) := Promise_all ps' w1 in
      (match oa, ol with
       | Fulfilled a, Fulfilled l => Fulfilled (a :: l)
       | Rejected e, _ => Rejected e
       | _, Rejected e => Rejected e
       end, w2)
  end.

(** The values met by [caches.match("/") || new Response(...)]. *)
Inductive JsValue :=
  | JsUndefined
  | JsResponse (r : Response)
  | JsPromise (p : Async (option Response)).

Definition truthy (v : JsValue) : bool :=
  match v with
  | JsUndefined => false
  | JsResponse _ | JsPromise _ => true
  end.

Definition js_or (a b : JsValue) : JsValue := if truthy a then a else b.

(** [return v] in an [async] function: a promise is adopted, its
    settlement becomes the function's. *)
Definition async_return (v : JsValue) : Async (option Response) :=
  match v with
  | JsUndefined => mret None
  | JsResponse r => mret (Some r)
  | JsPromise p => p
  end.

(** The argument of [new Date(...)] and the resulting time value
    ([None] is an invalid date, whose arithmetic gives NaN). *)
Inductive DateArg := DateString (s : string) | DateNumber (z : Z).

(** ** The platform the worker runs on *)

Record Platform := mkPlatform {
  network : string → option Response;
    (* what a GET of the URL yields; None is a transport-level failure *)
  now : Z;                          (* the clock, milliseconds since the epoch *)
  Date_parse : string → option Z;   (* parsing of a date string *)
  self_origin : string              (* the origin relative URLs resolve against *)
}.

Section Worker.

Variable env : Platform.

Definition fetch (request : Request) : Async Response := λ w,
  match network env (request_key request) with
  | Some r => (Fulfilled r, w)
  | None => (Rejected NetworkError, w)
  end.

(** The key of a request made from a URL string such as ["/"]. *)
Definition url_key (path : string) : string := self_origin env +:+ path.

(** *** Install *)

(** The requests of [cache.addAll]: each URL is fetched, and a failed
    fetch, a response that is not ok, or one that [cache.put] would not
    accept (status 206, a Vary star) rejects the whole operation with a
    TypeError. *)
Fixpoint fetch_all (urls : list string) : Error + list (string * Response) :=
  match urls with
  | [] => inr []
  | u :: urls' =>
      match network env (url_key u) with
      | None => inl TypeError
      | Some r =>
          if ok r && put_accepts r then
            match fetch_all urls' with
            | inr l => inr ((url_key u, r) :: l)
            | inl e => inl e
            end
          else inl TypeError
      end
  end.

(** [cache.addAll(urls)]: no entry is written unless all are. *)
Definition cache_addAll (cache : string) (urls : list string) : Async unit := λ w,
  match fetch_all urls with
  | inr entries => (Fulfilled tt, with_storage (storage_put_all cache entries) w)
  | inl e => (Rejected e, w)
  end.

Definition install_listener : Async unit :=
  _ ← Promise_all2
        (cache ← caches_open CACHE_NAME; cache_addAll cache CRITICAL_RESOURCES)
        (cache ← caches_open STATIC_CACHE; cache_addAll cache STATIC_ASSETS);
  emit SkipWaiting.

(** *** Activate *)

Definition includes (l : list string) (x : string) : bool := bool_decide (x ∈ l).

Definition activate_listener : Async unit :=
  _ ← Promise_all2
        (cacheNames ← caches_keys;
         Promise_all
           (map (λ cacheName,
                   if negb (includes current_caches cacheName)
                   then b ← caches_delete cacheName; mret (Some b)
                   else mret None)
                cacheNames))
        (emit ClientsClaim);
  mret tt.

(** *** Network First *)

Definition networkFirstStrategy (request : Request) (cacheName : string)
  : Async (option Response) :=
  try_catch
    (networkResponse ← fetch request;
     _ ← (if ok networkResponse then
            cache ← caches_open cacheName;
            spawn (PutTask cache (request_key request) (clone networkResponse))
          else mret tt);
     mret (Some networkResponse))
    (λ error,
       cachedResponse ← caches_match (request_key request);
       match cachedResponse with
       | Some r => mret (Some r)
       | None =>
           if String.eqb (mode request) "navigate" then
             async_return
               (js_or (JsPromise (caches_match (url_key "/")))
                      (JsResponse offline_response))
           else throw error
       end).

(** *** Cache First *)

Definition new_Date (a : DateArg) : option Z :=
  match a with
  | DateNumber z => Some z
  | DateString s => Date_parse env s
  end.

(** [cachedResponse.headers.get("date") || 0] *)
Definition date_header_or_zero (r : Response) : DateArg :=
  match headers r !! "date" with
  | Some s => if String.eqb s "" then DateNumber 0 else DateString s
  | None => DateNumber 0
  end.

Definition oneHour : Z := 60 * 60 * 1000.

(** [now - cacheDate > oneHour]; a comparison with NaN is false. *)
Definition older_than_one_hour (cacheDate : option Z) : bool :=
  match cacheDate with
  | Some d => oneHour <? now env - d
  | None => false
  end.

Definition cacheFirstStrategy (request : Request) (cacheName : string)
  : Async Response :=
  cachedResponse ← caches_match (request_key request);
  match cachedResponse with
  | Some cachedResponse =>
      let cacheDate := new_Date (date_header_or_zero cachedResponse) in
      _ ← (if older_than_one_hour cacheDate
           then spawn (RefetchTask request cacheName)
           else mret tt);
      mret cachedResponse
  | None =>
      try_catch
        (networkResponse ← fetch request;
         _ ← (if ok networkResponse then
                cache ← caches_open cacheName;
                spawn (PutTask cache (request_key request) (clone networkResponse))
              else mret tt);
         mret networkResponse)
        (λ error, throw error)
  end.

(** What an operation that was not awaited does to the storage once it
    runs to completion. A [cache.put] of a response that the platform
    does not accept rejects (nobody handles the rejection) and stores
    nothing; in the refetch the cache has been opened by then. *)
Definition run_task (t : Task) (st : CacheStorage) : CacheStorage :=
  match t with
  | PutTask cacheName key response =>
      if put_accepts response then storage_put cacheName key response st
      else st
  | RefetchTask request cacheName =>
      match network env (request_key request) with
      | Some response =>
          if ok response
          then if put_accepts response
               then storage_put cacheName (request_key request) response
                      (storage_open cacheName st)
               else storage_open cacheName st
          else st
      | None => st
      end
  end.

(** The storage after every started operation has completed. *)
Definition settle (w : World) : CacheStorage :=
  foldl (λ st t, run_task t st) (storage w) (spawned w).

(** *** The fetch listener *)

Definition run_strategy (s : Strategy) (request : Request) (cacheName : string)
  : Async (option Response) :=
  match s with
  | NetworkFirst => networkFirstStrategy request cacheName
  | CacheFirst => r ← cacheFirstStrategy request cacheName; mret (Some r)
  end.

(** [None]: the listener returns without calling [respondWith]. *)
Definition fetch_listener (request : Request) : option (Async (option Response)) :=
  match classify request with
  | None => None
  | Some c => Some (run_strategy (dispatch c).1 request (dispatch c).2)
  end.

(** *** Push *)

Definition default_notificationData : gmap string Json :=
  {[ "title" := JStr "Amino Gym";
     "body" := JStr "إشعار من Amino Gym";
     "icon" := JStr "/yacin-gym-logo.png";
     "badge" := JStr "/yacin-gym-logo.png" ]}.

Definition notification_actions : list NotificationAction :=
  [ {| action := "open"; action_title := "فتح التطبيق";
       action_icon := Some "/yacin-gym-logo.png" |};
    {| action := "close"; action_title := "إغلاق"; action_icon := None |} ].

(** [notificationData.url || "/"] *)
Definition url_or_root (notificationData : gmap string Json) : Json :=
  match notificationData !! "url" with
  | Some v => if json_truthy v then v else JStr "/"
  | None => JStr "/"
  end.

Definition push_notificationData (event : PushEvent) : gmap string Json :=
  match data event with
  | Some d =>
      match json d with
      | Some v => spread default_notificationData v
      | None => <["body" := JStr (text d)]> default_notificationData
      end
  | None => default_notificationData
  end.

Definition push_listener (event : PushEvent) : Async unit :=
  let notificationData := push_notificationData event in
  let options :=
    {| n_body := notificationData !! "body";
       n_icon := notificationData !! "icon";
       n_badge := notificationData !! "badge";
       n_vibrate := [100; 50; 100];
       n_data := {| dateOfArrival := now env; primaryKey := now env;
                    data_url := url_or_root notificationData |};
       n_actions := notification_actions;
       n_requireInteraction := false;
       n_silent := false |} in
  emit (ShowNotification (notificationData !! "title") options).

(** *** Vocabulary for the lifecycle properties *)

(** The deletions of the activate listener, as a function of the names
    [caches.keys()] reported. *)
Definition prune (names : list string) (st : CacheStorage) : CacheStorage :=
  foldl (λ acc n, if includes current_caches n then acc else storage_delete n acc)
        st names.

(** The storage after [caches.open(name)] followed by [addAll(urls)]. *)
Definition after_addAll (name : string) (urls : list string) (st : CacheStorage)
  : CacheStorage :=
  match fetch_all urls with
  | inr es => storage_put_all name es (storage_open name st)
  | inl _ => storage_open name st
  end.

(** Every URL of the list is fetched with a response that [addAll]
    takes: ok, not 206, no Vary star. *)
Definition all_ok (urls : list string) : bool :=
  forallb (λ u, from_option (λ r, ok r && put_accepts r) false
                  (network env (url_key u))) urls.

(** The contents of the cache called [name]; nothing when there is no
    such cache. *)
Definition cache_of (name : string) (st : CacheStorage) : Cache :=
  default ∅ (storage_cache name st).

(** [new] is [old] with the response of each URL of the list written
    under its key, and nothing else changed. *)
Definition precached (urls : list string) (old new : Cache) : Prop :=
  ∀ k, new !! k
       = if decide (k ∈ url_key <$> urls) then network env k else old !! k.

End Worker.

(** ** Concrete inputs used by the examples below *)

Definition example_origin : string := "https://gym.example".

Definition GET (path dest md : string) : Request :=
  {| method := "GET"; url := mkURL example_origin path "";
     destination := dest; mode := md |}.

Definition plain (st : Z) (b : string) : Response :=
  {| status := st; body := b; headers := ∅ |}.

Definition world_of (st : CacheStorage) : World :=
  {| storage := st; spawned := []; effects := [] |}.

(** No network at all. *)
Definition offline : Platform :=
  {| network := λ _, None; now := 1700000000000;
     Date_parse := λ _, None; self_origin := example_origin |}.

(** Every GET is answered with [r]. *)
Definition online (r : Response) : Platform :=
  {| network := λ _, Some r; now := 1700000000000;
     Date_parse := λ _, None; self_origin := example_origin |}.

(** The storage a first install leaves next to the cache of an older
    version of the worker. *)
Definition storage_before_activate : CacheStorage :=
  [("amino-gym-v1", ∅); (CACHE_NAME, ∅); (STATIC_CACHE, ∅)].

(** A picture that was once requested by an [<img>] and is then opened
    as a page of its own. *)
Definition photo_request : Request := GET "/photo.png" "document" "navigate".

Definition photo_storage : CacheStorage :=
  [(CACHE_NAME, ∅);
   (IMAGE_CACHE, {[ request_key photo_request := plain 200 "photo" ]})].

Definition members_request : Request := GET "/api/members" "" "cors".

Definition page_request : Request := GET "/members" "document" "navigate".


(** The logo is pre-cached by install in the primary cache and is later
    requested as an image. *)
Definition logo_request : Request := GET "/yacin-gym-logo.png" "image" "no-cors".

Definition logo_storage : CacheStorage :=
  [(CACHE_NAME, {[ request_key logo_request := plain 200 "old logo" ]});
   (IMAGE_CACHE, ∅)].

(** A device whose clock was never set and reads exactly one hour past
    the epoch; no network. *)
Definition unset_clock : Platform :=
  {| network := λ _, None; now := 3600000;
     Date_parse := λ _, None; self_origin := example_origin |}.

(** A network that serves every resource of the worker's manifest. *)
Definition serving_manifest : Platform :=
  {| network := λ k, Some (plain 200 k); now := 1700000000000;
     Date_parse := λ _, None; self_origin := example_origin |}.

(** The primary cache already holds a page that was visited. *)
Definition visited_storage : CacheStorage :=
  [(CACHE_NAME, {[ request_key page_request := plain 200 "members page" ]})].

(** A payload that does not parse: an object whose body string is never
    closed. [dquote] is the double-quote character. *)
Definition dquote : string := String (Ascii.ascii_of_nat 34) EmptyString.

Definition malformed_text : string :=
  "{" +:+ dquote +:+ "body" +:+ dquote +:+ ": " +:+ dquote +:+ "not-json".

Definition malformed_push : PushEvent :=
  {| data := Some {| text := malformed_text; json := None |} |}.

(** Whether the first cache that answers for [key], if any, is [name]. *)
Definition answers_first (name key : string) (st : CacheStorage) : Prop :=
  storage_find key st = None ∨ ∃ r0, storage_find key st = Some (name, r0).

(** ** The notification, sync and message listeners *)

(** [s.includes(sub)] *)
Fixpoint string_includes (s sub : string) : bool :=
  String.prefix sub s ||
  match s with
  | EmptyString => false
  | String _ s' => string_includes s' sub
  end.

(** A window client as [clients.matchAll] lists it. *)
Record Client := mkClient {
  client_id : nat;
  client_url : string;
  has_focus : bool;       (* "focus" in client *)
  has_navigate : bool     (* client.navigate is there *)
}.

(** What these listeners do to the outside. *)
Inductive Action :=
  | NotificationClose
  | ClientFocus (id : nat)
  | ClientNavigate (id : nat) (target : Json)
  | OpenWindow (target : Json)
  | ClientPostMessage (id : nat) (type status : string)
  | PortPostMessage (port : nat) (version : string)
  | CallSkipWaiting
  | WaitUntil
  | Timeout (ms : Z).

(** A synchronous listener returns or throws. *)
Inductive Completion (A : Type) :=
  | Returned (a : A)
  | Thrown (e : Error).
Arguments Returned {A} a.
Arguments Thrown {A} e.

Record NotificationClickEvent := mkClick {
  click_action : string;            (* event.action *)
  click_url : option Json           (* event.notification.data?.url *)
}.

(** [event.notification.data?.url || "/"] *)
Definition urlToOpen (event : NotificationClickEvent) : Json :=
  match click_url event with
  | Some v => if json_truthy v then v else JStr "/"
  | None => JStr "/"
  end.

(** The test of the loop over the client list. *)
Definition client_matches (origin : string) (client : Client) : bool :=
  string_includes (client_url client) origin && has_focus client.

(** The callback given to [clients.matchAll(...).then]. *)
Fixpoint focus_or_open (origin : string) (has_openWindow : bool) (target : Json)
    (clientList : list Client) : list Action :=
  match clientList with
  | [] => if has_openWindow then [OpenWindow target] else []
  | client :: rest =>
      if client_matches origin client then
        ClientFocus (client_id client) ::
        (if has_navigate client
         then [ClientNavigate (client_id client) target] else [])
      else focus_or_open origin has_openWindow target rest
  end.

Definition notificationclick_listener (origin : string) (has_openWindow : bool)
    (clientList : list Client) (event : NotificationClickEvent) : list Action :=
  NotificationClose ::
  (if String.eqb (click_action event) "close" then []
   else WaitUntil ::
        focus_or_open origin has_openWindow (urlToOpen event) clientList).

(** The click event of a notification that [push_listener] showed. *)
Definition click_on (chosen : string) (shown : Effect) : option NotificationClickEvent :=
  match shown with
  | ShowNotification _ options =>
      Some {| click_action := chosen;
              click_url := Some (data_url (n_data options)) |}
  | _ => None
  end.

(** [clients.forEach(client => client.postMessage({type: "BACKGROUND_SYNC",
    payload: {status}}))] *)
Definition post_to_all (status : string) (clients : list Client) : list Action :=
  map (λ client, ClientPostMessage (client_id client) "BACKGROUND_SYNC" status)
      clients.

Definition doBackgroundSync (clients : list Client) : list Action :=
  post_to_all "started" clients ++ [Timeout 1000] ++ post_to_all "completed" clients.

Definition sync_listener (clients : list Client) (tag : string) : list Action :=
  if String.eqb tag "background-sync"
  then WaitUntil :: doBackgroundSync clients
  else [].

(** The periodicsync listener exists only when the registration has the
    capability. *)
Definition periodicsync_listener (has_periodicSync : bool)
    (clients : list Client) (tag : string) : list Action :=
  if has_periodicSync then
    if String.eqb tag "background-sync"
    then WaitUntil :: doBackgroundSync clients
    else []
  else [].

(** The statuses posted to one client, in order. *)
Definition statuses_for (id : nat) (acts : list Action) : list string :=
  omap (λ a, match a with
             | ClientPostMessage i _ status =>
                 if decide (i = id) then Some status else None
             | _ => None
             end) acts.

Record MessageEvent := mkMessage {
  message_data : option Json;       (* None: undefined *)
  message_ports : list nat
}.

(** [event.data && event.data.type]: the type read from a truthy value;
    only objects have one. *)
Definition message_type (event : MessageEvent) : option Json :=
  match message_data event with
  | Some (JObj fields) => own_properties (JObj fields) !! "type"
  | _ => None
  end.

(** [... === s] *)
Definition is_string (v : option Json) (s : string) : bool :=
  match v with
  | Some (JStr t) => String.eqb t s
  | _ => false
  end.

Definition message_listener (event : MessageEvent) : Completion (list Action) :=
  let skip :=
    if is_string (message_type event) "SKIP_WAITING" then [CallSkipWaiting] else [] in
  if is_string (message_type event) "GET_VERSION" then
    match message_ports event with
    | port :: _ => Returned (skip ++ [PortPostMessage port CACHE_NAME])
    | [] => Thrown TypeError
    end
  else Returned skip.

(** ** The page's cache clean-up (utils/performance.ts) *)

Definition clearOldCaches (has_caches : bool) : Async unit :=
  if has_caches then
    cacheNames ← caches_keys;
    _ ← Promise_all
          (map (λ name, caches_delete name)
               (filter (λ name, string_includes name "v1" = false) cacheNames));
    mret tt
  else mret tt.

(** ** memoize, debounce and throttle (utils/performance.ts) *)

Section Memoize.

Context {Args Res : Type}.

(** [JSON.stringify(args)]; [None] when it throws. *)
Variable stringify : Args → option string.

(** The wrapped function, as a function of its arguments; [None] when it
    throws. *)
Variable fn : Args → option Res.

(** The [Map] of the closure, and the calls made to [fn] so far. *)
Record MemoState := mkMemo {
  memo_cache : gmap string Res;
  memo_calls : list Args
}.

Definition memo_empty : MemoState := {| memo_cache := ∅; memo_calls := [] |}.

(** One call of the function [memoize] returns. *)
Definition memoized (args : Args) (s : MemoState) : Completion Res * MemoState :=
  match stringify args with
  | None => (Thrown TypeError, s)
  | Some key =>
      match memo_cache s !! key with
      | Some result => (Returned result, s)
      | None =>
          match fn args with
          | Some result =>
              (Returned result,
               {| memo_cache := <[key := result]> (memo_cache s);
                  memo_calls := memo_calls s ++ [args] |})
          | None =>
              (Thrown TypeError,
               {| memo_cache := memo_cache s;
                  memo_calls := memo_calls s ++ [args] |})
          end
      end
  end.

(** The state after a sequence of calls. *)
Definition memo_after (calls : list Args) (s : MemoState) : MemoState :=
  foldl (λ acc args, (memoized args acc).2) s calls.

(** The keys of the calls to [fn] that returned. *)
Definition computed_keys (s : MemoState) : list string :=
  omap (λ args, match fn args with
                | Some _ => stringify args
                | None => None
                end) (memo_calls s).

(** The cache holds exactly the keys of the calls to the function that
    returned, each once. *)
Definition memo_inv (s : MemoState) : Prop :=
  NoDup (computed_keys s) ∧
  ∀ k, k ∈ computed_keys s ↔ is_Some (memo_cache s !! k).

(** Every cached value is what the function returned for some arguments
    with that key. *)
Definition memo_sound (s : MemoState) : Prop :=
  ∀ k v, memo_cache s !! k = Some v → ∃ a, stringify a = Some k ∧ fn a = Some v.

End Memoize.

(** [setTimeout] takes its delay as a 32-bit signed integer, the
    conversion wrapping around, and counts a negative delay as zero: a
    delay of 2147483648 ms is no delay at all. *)
Definition to_int32 (z : Z) : Z :=
  (z + 2147483648) `mod` 4294967296 - 2147483648.

Definition timer_delay (ms : Z) : Z := Z.max 0 (to_int32 ms).

Section Debounce.

Context {Args : Type}.

Variable wait : Z.

(** [timeout], the timers that are set (with the time they are due and
    the arguments their callback closes over), the next timer id, and the
    invocations of [func] with their times. *)
Record Debounced := mkDebounced {
  timeout : option nat;
  pending : gmap nat (Z * Args);
  next_timer : nat;
  invoked : list (Z * Args)
}.

Definition debounce_init : Debounced :=
  {| timeout := None; pending := ∅; next_timer := 0; invoked := [] |}.

(** [clearTimeout(id)]; an id that is undefined or no longer set is
    ignored. *)
Definition clearTimeout (id : option nat) (timers : gmap nat (Z * Args))
  : gmap nat (Z * Args) :=
  match id with
  | Some i => delete i timers
  | None => timers
  end.

(** A call of the debounced function at time [t]: the timer of the call
    before is cleared and a new one is set. *)
Definition debounce_call (t : Z) (args : Args) (s : Debounced) : Debounced :=
  {| timeout := Some (next_timer s);
     pending := <[next_timer s := (t + timer_delay wait, args)]>
                  (clearTimeout (timeout s) (pending s));
     next_timer := S (next_timer s);
     invoked := invoked s |}.

(** The platform runs timer [id] at time [t], if it is set and due. *)
Definition debounce_fire (t : Z) (id : nat) (s : Debounced) : Debounced :=
  match pending s !! id with
  | Some (due, args) =>
      if due <=? t then
        {| timeout := timeout s;
           pending := delete id (pending s);
           next_timer := next_timer s;
           invoked := invoked s ++ [(t, args)] |}
      else s
  | None => s
  end.

Inductive TimerEvent :=
  | Call (t : Z) (args : Args)
  | Fire (t : Z) (id : nat).


Definition debounce_step (s : Debounced) (e : TimerEvent) : Debounced :=
  match e with
  | Call t args => debounce_call t args s
  | Fire t id => debounce_fire t id s
  end.

Definition debounce_run (events : list TimerEvent) (s : Debounced) : Debounced :=
  foldl debounce_step s events.

Definition is_fire (e : TimerEvent) : Prop :=
  match e with Fire _ _ => True | Call _ _ => False end.

(** *** throttle *)

Variable limit : Z.

(** The throttled function, called at a time with arguments: it returns
    (its value is dropped) or throws. *)
Variable func : Z → Args → Completion unit.











End Debounce.

(** ** The chunk file names of the build configuration *)

Definition is_slash (c : Ascii.ascii) : bool :=
  String.eqb (String c EmptyString) "/".

(** [s.split("/")] *)
Fixpoint split_slash (s : string) : list string :=
  match s with
  | EmptyString => [EmptyString]
  | String c s' =>
      if is_slash c then EmptyString :: split_slash s'
      else match split_slash s' with
           | h :: t => String c h :: t
           | [] => [String c EmptyString]
           end
  end.

Fixpoint string_drop (n : nat) (s : string) : string :=
  match n, s with
  | O, _ => s
  | S n', String _ s' => string_drop n' s'
  | S _, EmptyString => EmptyString
  end.

(** [s.replace(pat, rep)] with a string pattern: the first occurrence
    only. *)
Fixpoint replace_first (pat rep s : string) : string :=
  if String.prefix pat s then rep +:+ string_drop (String.length pat) s
  else match s with
       | EmptyString => EmptyString
       | String c s' => String c (replace_first pat rep s')
       end.

(** [chunkInfo.facadeModuleId] is null, or a string (the empty one is
    falsy too). *)
Definition chunkFileNames (facadeModuleId : option string) : string :=
  let name :=
    match facadeModuleId with
    | Some id =>
        if String.eqb id "" then "chunk"
        else replace_first ".ts" ""
               (replace_first ".tsx" "" (default "" (last (split_slash id))))
    | None => "chunk"
    end in
  "js/" +:+ name +:+ "-[hash].js".

(** ** More concrete inputs *)

Definition dated_logo (s : string) : Response :=
  {| status := 200; body := "logo"; headers := {[ "date" := s ]} |}.

Definition dated_storage (s : string) : CacheStorage :=
  [(IMAGE_CACHE, {[ request_key logo_request := dated_logo s ]})].

(** No network, and every date string parses to [d]. *)
Definition dating (d : Z) : Platform :=
  {| network := λ _, None; now := 1700000000000;
     Date_parse := λ _, Some d; self_origin := example_origin |}.

Definition login_request : Request := GET "/login" "document" "navigate".

Definition two_clients : list Client :=
  [ {| client_id := 1; client_url := "https://other.example/";
       has_focus := true; has_navigate := true |};
    {| client_id := 2; client_url := "https://gym.example/home";
       has_focus := true; has_navigate := true |} ].

Definition open_click : NotificationClickEvent :=
  {| click_action := "open"; click_url := Some (JStr "/home?tab=payments") |}.

Definition url_push : PushEvent :=
  {| data := Some {| text := "payload";
                     json := Some (JObj [("url", JStr "/home?tab=payments")]) |} |}.

Definition string_push : PushEvent :=
  {| data := Some {| text := "hello"; json := Some (JStr "hello") |} |}.

Definition version_query : MessageEvent :=
  {| message_data := Some (JObj [("type", JStr "GET_VERSION")]);
     message_ports := [7%nat] |}.

Definition skip_message : MessageEvent :=
  {| message_data := Some (JObj [("type", JStr "SKIP_WAITING")]);
     message_ports := [] |}.

(** Arguments whose JSON texts collide: null and undefined both give
    [[null]]. *)
Inductive ExampleArg := ArgNull | ArgUndefined | ArgNum (n : nat).

Definition example_stringify (a : ExampleArg) : option string :=
  Some match a with
       | ArgNull | ArgUndefined => "[null]"
       | ArgNum n => "[" +:+ pretty n +:+ "]"
       end.

Definition example_fn (a : ExampleArg) : option string :=
  Some match a with
       | ArgNull => "null"
       | ArgUndefined => "undefined"
       | ArgNum n => pretty n
       end.

Definition bool_stringify (b : bool) : option string :=
  Some (if b then "[true]" else "[false]").

Definition bool_fn (b : bool) : option bool := Some (negb b).

Definition typing_burst : list (@TimerEvent string) :=
  [Call 0 "a"; Call 50 "am"].



(** ** Helper lemmas on strings *)

Lemma app_String a (s t : string) : String a s +:+ t = String a (s +:+ t).
Proof. reflexivity. Qed.

Lemma app_empty (t : string) : "" +:+ t = t.
Proof. reflexivity. Qed.

Lemma prefix_has_prefix (p s : string) :
  String.prefix p s = true ↔ has_prefix p s.
Proof.
  revert s. induction p as [|a p IH]; intros s.
  - split; [intros _; by exists s | by destruct s].
  - destruct s as [|b s]; simpl.
    + split; [done | intros [t Ht]; discriminate].
    + destruct (Ascii.ascii_dec a b) as [->|Hne].
      * rewrite IH. split; intros [t Ht]; exists t;
          rewrite app_String in *; congruence.
      * split; [done | intros [t Ht]; rewrite app_String in Ht; congruence].
Qed.

Lemma has_suffix_nil (suf : string) :
  has_suffix suf "" ↔ suf = "".
Proof.
  split.
  - intros [p Hp]. destruct p; [by rewrite app_empty in Hp | discriminate].
  - intros ->. by exists "".
Qed.

Lemma has_suffix_cons (suf : string) a (s : string) :
  has_suffix suf (String a s) ↔ suf = String a s ∨ has_suffix suf s.
Proof.
  split.
  - intros [p Hp]. destruct p as [|b p].
    + left. by rewrite app_empty in Hp.
    + right. exists p. rewrite app_String in Hp. congruence.
  - intros [-> | [p ->]]; [by exists "" | by exists (String a p)].
Qed.

Lemma match_static_ext_spec (s : string) :
  match_static_ext s = true ↔ static_suffix s.
Proof.
  unfold static_suffix. induction s as [|a s IH].
  - rewrite !has_suffix_nil. simpl. split; [done | intros [|[|[|]]]; done].
  - cbn [match_static_ext]. rewrite orb_true_iff, IH, !has_suffix_cons.
    unfold static_ext_here. rewrite !orb_true_iff, !String.eqb_eq.
    intuition congruence.
Qed.

(** ** Classification *)

Lemma classify_classified (request : Request) :
  classified request (classify request).
Proof.
  unfold classify.
  destruct (String.eqb_spec (method request) "GET") as [Hm|Hm]; simpl;
    [| by constructor].
  destruct (String.prefix "/api/" (pathname (url request))) eqn:Hp.
  { apply rule_api; [done | by apply prefix_has_prefix]. }
  assert (¬ has_prefix "/api/" (pathname (url request))) as Hnp.
  { rewrite <- prefix_has_prefix. congruence. }
  destruct (String.eqb_spec (destination request) "image") as [Hd|Hd].
  { by apply rule_image. }
  destruct (match_static_ext (pathname (url request))) eqn:Hs.
  - apply rule_static; [done..|]. by apply match_static_ext_spec.
  - apply rule_document; [done..|]. rewrite <- match_static_ext_spec. congruence.
Qed.

Lemma classified_functional (request : Request) o1 o2 :
  classified request o1 → classified request o2 → o1 = o2.
Proof. destruct 1; destruct 1; done. Qed.

(** C5: the fetch listener's classification follows the five rules in
    priority order and is total: a request that is not a GET is not
    intercepted; a GET whose path starts with /api/ is API whatever else
    holds of it; otherwise destination image gives Image; otherwise a path
    ending in .js, .css, .woff or .woff2 gives StaticAsset; everything else
    is Document; every GET request has exactly one class. *)
Theorem classify_total_and_ordered (env : Platform) (request : Request) :
  (∀ o, classify request = o ↔ classified request o) ∧
  (method request ≠ "GET" →
     classify request = None ∧ fetch_listener env request = None) ∧
  (method request = "GET" →
     ∃ c, classify request = Some c ∧ ∀ c', classify request = Some c' → c' = c) ∧
  (method request = "GET" →
     has_prefix "/api/" (pathname (url request)) →
     classify request = Some API).
Proof.
  assert (∀ o, classify request = o ↔ classified request o) as Hiff.
  { intros o. split.
    - intros <-. apply classify_classified.
    - intros H. eapply classified_functional; [apply classify_classified | done]. }
  split; [done|]. split; [|split].
  - intros Hm. assert (classify request = None) as Hc.
    { apply Hiff. by constructor. }
    split; [done|]. unfold fetch_listener. by rewrite Hc.
  - intros Hm. destruct (classify request) as [c|] eqn:Hc.
    + exists c. split; [done | congruence].
    + pose proof (classify_classified request) as H.
      rewrite Hc in H. by inversion H.
  - intros Hm Hp. apply Hiff. by constructor.
Qed.

(** [classify] on a script under /api/. *)
Lemma classify_api_script :
  classify (GET "/api/app.js" "script" "no-cors") = Some API.
Proof.
  apply (classify_total_and_ordered offline (GET "/api/app.js" "script" "no-cors")).
  - reflexivity.
  - by exists "app.js".
Defined.

(** ** Lists and the storage *)

Lemma filter_ext_elem {A} (P Q : A → Prop)
    `{∀ x, Decision (P x)} `{∀ x, Decision (Q x)} (l : list A) :
  (∀ x, x ∈ l → (P x ↔ Q x)) → filter P l = filter Q l.
Proof.
  induction l as [|x l IH]; intros HPQ; [done|].
  rewrite !filter_cons.
  rewrite IH by (intros y Hy; apply HPQ; by right).
  destruct (decide (P x)) as [HP|HP], (decide (Q x)) as [HQ|HQ]; try done;
    exfalso; specialize (HPQ x ltac:(left)); tauto.
Qed.

Lemma filter_all {A} (P : A → Prop) `{∀ x, Decision (P x)} (l : list A) :
  (∀ x, x ∈ l → P x) → filter P l = l.
Proof.
  induction l as [|x l IH]; intros HP; [done|].
  rewrite filter_cons_True by (apply HP; left).
  f_equal. apply IH. intros y Hy. apply HP. by right.
Qed.

Lemma prune_filter (names : list string) (st : CacheStorage) :
  prune names st = filter (λ p, p.1 ∈ current_caches ∨ p.1 ∉ names) st.
Proof.
  revert st. induction names as [|n names IH]; intros st.
  - symmetry. apply filter_all. intros p _. right. apply not_elem_of_nil.
  - unfold prune in *. cbn [foldl]. rewrite IH. unfold includes.
    case_bool_decide as Hn.
    + apply list_filter_iff. intros p. rewrite not_elem_of_cons.
      destruct (decide (p.1 = n)) as [->|]; tauto.
    + unfold storage_delete, CacheStorage in *. rewrite list_filter_filter.
      apply list_filter_iff. intros p. rewrite not_elem_of_cons.
      destruct (decide (p.1 = n)) as [->|]; tauto.
Qed.

Lemma prune_keys (st : CacheStorage) :
  prune (storage_keys st) st = filter (λ p, p.1 ∈ current_caches) st.
Proof.
  rewrite prune_filter. apply filter_ext_elem. intros p Hp.
  assert (p.1 ∈ storage_keys st) by (by apply list_elem_of_fmap_2).
  tauto.
Qed.

Lemma Promise_all_deletes (names : list string) (w : World) :
  ∃ l,
    Promise_all
      (map (λ cacheName,
              if negb (includes current_caches cacheName)
              then b ← caches_delete cacheName; mret (Some b)
              else mret None) names) w
    = (Fulfilled l, with_storage (prune names) w).
Proof.
  revert w. induction names as [|n names IH]; intros w.
  - exists []. by destruct w.
  - cbn [map Promise_all].
    destruct (includes current_caches n) eqn:Hn; cbn [negb].
    + destruct (IH w) as [l Hl].
      exists (None :: l). unfold mret at 1, Async_ret at 1.
      rewrite Hl. unfold prune. cbn [foldl]. by rewrite Hn.
    + destruct (IH (with_storage (storage_delete n) w)) as [l Hl].
      assert ((caches_delete n ≫= λ b, mret (Some b)) w
              = (Fulfilled (Some (bool_decide
                   (is_Some (storage_cache n (storage w))))),
                 with_storage (storage_delete n) w)) as -> by reflexivity.
      rewrite Hl.
      exists (Some (bool_decide (is_Some (storage_cache n (storage w)))) :: l).
      destruct w. unfold with_storage, prune. cbn [foldl storage].
      rewrite Hn. reflexivity.
Qed.

(** C2 (as amended): once the activate listener is done, the caches that
    exist are those that existed before and are among the four current
    ones, in their old order and with their old contents; every cache
    with another name is gone, none is created, and the clients have
    been claimed. *)
Theorem activate_keeps_current_only (w : World) :
  (activate_listener w).1 = Fulfilled tt ∧
  storage (activate_listener w).2
    = filter (λ p, p.1 ∈ current_caches) (storage w) ∧
  (∀ n, n ∈ storage_keys (storage (activate_listener w).2)
        ↔ n ∈ storage_keys (storage w) ∧ n ∈ current_caches) ∧
  effects (activate_listener w).2 = effects w ++ [ClientsClaim] ∧
  spawned (activate_listener w).2 = spawned w.
Proof.
  assert (activate_listener w =
    (Fulfilled tt,
     {| storage := filter (λ p, p.1 ∈ current_caches) (storage w);
        spawned := spawned w; effects := effects w ++ [ClientsClaim] |}))
    as Hrun.
  { destruct (Promise_all_deletes (storage_keys (storage w)) w) as [l Hl].
    unfold activate_listener, Promise_all2.
    unfold mbind at 1, Async_bind at 1.
    unfold mbind at 1, Async_bind at 1. unfold caches_keys at 1.
    rewrite Hl. unfold emit, mret, Async_ret, with_storage. cbn.
    by rewrite prune_keys. }
  rewrite Hrun. cbn. split; [done|]. split; [done|]. split; [|done].
  intros n. unfold storage_keys. rewrite !list_elem_of_fmap. split.
  - intros (p & -> & Hp). apply list_elem_of_filter in Hp as [Hc Hp]. eauto.
  - intros [(p & -> & Hp) Hc]. exists p. split; [done|].
    by apply list_elem_of_filter.
Qed.

(** C2 as stated fails when one of the four caches did not exist before:
    after a first install only two of them do, and activation creates
    none. *)
Lemma activate_does_not_create_missing :
  storage_keys (storage (activate_listener (world_of storage_before_activate)).2)
    = [CACHE_NAME; STATIC_CACHE] ∧
  ¬ (∀ n, n ∈ current_caches →
          n ∈ storage_keys
                (storage (activate_listener (world_of storage_before_activate)).2)).
Proof.
  assert (storage_keys
            (storage (activate_listener (world_of storage_before_activate)).2)
          = [CACHE_NAME; STATIC_CACHE]) as Hkeys by reflexivity.
  split; [done|]. rewrite Hkeys.
  intros H. specialize (H DYNAMIC_CACHE).
  assert (DYNAMIC_CACHE ∈ current_caches) as Hin
    by (unfold current_caches; set_solver).
  apply H in Hin. revert Hin.
  apply (bool_decide_unpack (DYNAMIC_CACHE ∉ [CACHE_NAME; STATIC_CACHE])).
  by vm_compute.
Qed.

(** ** The storage operations *)

Lemma storage_match_find (key : string) (st : CacheStorage) :
  storage_match key st = snd <$> storage_find key st.
Proof.
  induction st as [|[n c] st IH]; [done|]. simpl.
  by destruct (c !! key).
Qed.

Lemma storage_find_in_cache key st n r c r' :
  storage_find key st = Some (n, r) →
  storage_cache n st = Some c → c !! key = Some r' → r = r'.
Proof.
  induction st as [|[n0 c0] st IH]; [done|]. simpl.
  destruct (c0 !! key) as [r0|] eqn:H0.
  - intros [= -> ->]. rewrite decide_True by done. intros [= ->]. congruence.
  - intros Hf. destruct (decide (n0 = n)) as [->|]; [|by apply IH].
    intros [= ->]. congruence.
Qed.

Lemma storage_find_is_Some key st name c r :
  storage_cache name st = Some c → c !! key = Some r →
  is_Some (storage_find key st).
Proof.
  induction st as [|[n0 c0] st IH]; [done|]. simpl.
  destruct (c0 !! key) as [r0|] eqn:H0; [by eexists|].
  destruct (decide (n0 = name)) as [->|]; [|by apply IH].
  intros [= ->]. congruence.
Qed.

Lemma storage_cache_put name key r n st :
  storage_cache n (storage_put name key r st)
  = if decide (n = name) then <[key := r]> <$> storage_cache n st
    else storage_cache n st.
Proof.
  induction st as [|[n0 c0] st IH]; [by case_decide|]. simpl.
  destruct (decide (n0 = name)) as [->|Hne]; simpl.
  - destruct (decide (name = n)) as [->|].
    + by rewrite decide_True.
    + by rewrite decide_False.
  - destruct (decide (n0 = n)) as [->|]; [by rewrite decide_False|done].
Qed.

Lemma storage_cache_app name st1 st2 :
  storage_cache name (st1 ++ st2)
  = match storage_cache name st1 with
    | Some c => Some c
    | None => storage_cache name st2
    end.
Proof.
  induction st1 as [|[n0 c0] st1 IH]; [done|]. simpl. by case_decide.
Qed.

Lemma storage_cache_open name n st :
  storage_cache n (storage_open name st)
  = match storage_cache n st with
    | Some c => Some c
    | None => if decide (name = n) then Some ∅ else None
    end.
Proof.
  unfold storage_open. destruct (storage_cache name st) as [c|] eqn:Hc.
  - destruct (storage_cache n st) eqn:Hn; [done|].
    case_decide; [congruence | done].
  - rewrite storage_cache_app. simpl. by destruct (storage_cache n st).
Qed.

Lemma storage_find_put_first name key r r0 st :
  storage_find key st = Some (name, r0) →
  storage_find key (storage_put name key r st) = Some (name, r).
Proof.
  induction st as [|[n0 c0] st IH]; [done|]. simpl.
  destruct (c0 !! key) as [r1|] eqn:H1.
  - intros [= -> ->]. rewrite decide_True by done. simpl.
    by rewrite lookup_insert_eq.
  - intros Hf. destruct (decide (n0 = name)) as [->|]; simpl.
    + by rewrite lookup_insert_eq.
    + rewrite H1. by apply IH.
Qed.

Lemma storage_find_open name key st :
  storage_find key (storage_open name st) = storage_find key st.
Proof.
  unfold storage_open. destruct (storage_cache name st); [done|].
  induction st as [|[n0 c0] st IH]; [done|]. simpl.
  by destruct (c0 !! key).
Qed.

(** ** Network First *)

Ltac run_async :=
  unfold networkFirstStrategy, cacheFirstStrategy, try_catch, fetch,
    caches_match, caches_open, spawn, throw, async_return, js_or,
    mbind, Async_bind, mret, Async_ret, with_storage; cbn.

Section Strategies.

Variable env : Platform.

Lemma networkFirst_ok request cacheName w r :
  network env (request_key request) = Some r → ok r = true →
  networkFirstStrategy env request cacheName w
  = (Fulfilled (Some r),
     {| storage := storage_open cacheName (storage w);
        spawned := spawned w ++ [PutTask cacheName (request_key request) (clone r)];
        effects := effects w |}).
Proof. intros Hn Hok. run_async. by rewrite Hn, Hok. Qed.

Lemma networkFirst_not_ok request cacheName w r :
  network env (request_key request) = Some r → ok r = false →
  networkFirstStrategy env request cacheName w = (Fulfilled (Some r), w).
Proof. intros Hn Hok. run_async. by rewrite Hn, Hok. Qed.

Lemma networkFirst_failed request cacheName w :
  network env (request_key request) = None →
  networkFirstStrategy env request cacheName w
  = (match storage_match (request_key request) (storage w) with
     | Some r => Fulfilled (Some r)
     | None =>
         if String.eqb (mode request) "navigate"
         then Fulfilled (storage_match (url_key env "/") (storage w))
         else Rejected NetworkError
     end, w).
Proof.
  intros Hn. run_async. rewrite Hn.
  destruct (storage_match (request_key request) (storage w)); [done|].
  by destruct (String.eqb (mode request) "navigate").
Qed.



(** C1: what the strategy does for a navigation when the network fails
    and nothing matches the request: the promise of [caches.match("/")]
    is truthy, so it is what the function returns; the entry of the root
    path when there is one, and [undefined] when there is none. The
    503 response is never built, and nothing is thrown. *)
Theorem networkFirst_navigate_fallback request cacheName w :
  network env (request_key request) = None →
  storage_match (request_key request) (storage w) = None →
  mode request = "navigate" →
  networkFirstStrategy env request cacheName w
  = (Fulfilled (storage_match (url_key env "/") (storage w)), w).
Proof.
  intros Hn Hm Hnav. rewrite networkFirst_failed by done.
  by rewrite Hm, Hnav.
Qed.

(** C3 (as amended): when the network fails, the request key is looked up
    in all the caches of the storage in creation order, whatever cache
    name was passed, and the first entry found is returned. So if the
    cache that was passed holds an entry under the key, an entry is
    returned: that one when the first cache holding the key is the one
    passed. *)
Theorem networkFirst_failed_lookup request cacheName w :
  network env (request_key request) = None →
  (∀ n r, storage_find (request_key request) (storage w) = Some (n, r) →
     networkFirstStrategy env request cacheName w = (Fulfilled (Some r), w)) ∧
  (∀ c r, storage_cache cacheName (storage w) = Some c →
     c !! request_key request = Some r →
     ∃ n r', storage_find (request_key request) (storage w) = Some (n, r') ∧
       networkFirstStrategy env request cacheName w = (Fulfilled (Some r'), w) ∧
       (n = cacheName → r' = r)).
Proof.
  intros Hn.
  assert (∀ n r, storage_find (request_key request) (storage w) = Some (n, r) →
     networkFirstStrategy env request cacheName w = (Fulfilled (Some r), w))
    as Hfirst.
  { intros n r Hf. rewrite networkFirst_failed by done.
    by rewrite storage_match_find, Hf. }
  split; [done|]. intros c r Hc Hr.
  destruct (storage_find_is_Some _ _ _ _ _ Hc Hr) as [[n r'] Hf].
  exists n, r'. split; [done|]. split; [exact (Hfirst n r' Hf)|].
  intros ->. eapply storage_find_in_cache; done.
Qed.


End Strategies.

(** At the failing input of C1: a navigation, no network, an empty
    storage. The strategy resolves to [undefined]. *)
Lemma networkFirst_navigate_fallback_empty :
  networkFirstStrategy offline page_request CACHE_NAME (world_of [])
  = (Fulfilled None, world_of []).
Proof.
  apply (networkFirst_navigate_fallback offline page_request CACHE_NAME
           (world_of [])); reflexivity.
Defined.

(** C3 as stated fails: the page request is passed the document cache,
    which holds nothing under its key, and is answered from the image
    cache. *)
Lemma networkFirst_answers_from_other_cache :
  (dispatch Document).2 = CACHE_NAME ∧
  classify photo_request = Some Document ∧
  (∃ c, storage_cache CACHE_NAME photo_storage = Some c ∧
        c !! request_key photo_request = None) ∧
  networkFirstStrategy offline photo_request CACHE_NAME (world_of photo_storage)
  = (Fulfilled (Some (plain 200 "photo")), world_of photo_storage).
Proof.
  split; [done|]. split; [reflexivity|]. split.
  - exists ∅. split; reflexivity.
  - reflexivity.
Qed.

Lemma networkFirst_failed_lookup_photo :
  networkFirstStrategy offline photo_request CACHE_NAME (world_of photo_storage)
  = (Fulfilled (Some (plain 200 "photo")), world_of photo_storage).
Proof.
  apply (proj1 (networkFirst_failed_lookup offline photo_request CACHE_NAME
                  (world_of photo_storage) eq_refl) IMAGE_CACHE).
  reflexivity.
Defined.



(** ** Cache First *)

Section CacheFirst.

Variable env : Platform.

Lemma cacheFirst_hit_run request cacheName w cached :
  storage_match (request_key request) (storage w) = Some cached →
  cacheFirstStrategy env request cacheName w
  = (Fulfilled cached,
     {| storage := storage w;
        spawned := spawned w ++
          (if older_than_one_hour env (new_Date env (date_header_or_zero cached))
           then [RefetchTask request cacheName] else []);
        effects := effects w |}).
Proof.
  intros Hm. run_async. rewrite Hm.
  destruct (older_than_one_hour _ _); [done|].
  rewrite app_nil_r. by destruct w.
Qed.

Lemma cacheFirst_miss_ok request cacheName w r :
  storage_match (request_key request) (storage w) = None →
  network env (request_key request) = Some r → ok r = true →
  cacheFirstStrategy env request cacheName w
  = (Fulfilled r,
     {| storage := storage_open cacheName (storage w);
        spawned := spawned w ++ [PutTask cacheName (request_key request) (clone r)];
        effects := effects w |}).
Proof. intros Hm Hn Hok. run_async. by rewrite Hm, Hn, Hok. Qed.

Lemma cacheFirst_miss_not_ok request cacheName w r :
  storage_match (request_key request) (storage w) = None →
  network env (request_key request) = Some r → ok r = false →
  cacheFirstStrategy env request cacheName w = (Fulfilled r, w).
Proof. intros Hm Hn Hok. run_async. by rewrite Hm, Hn, Hok. Qed.

Lemma cacheFirst_miss_failed request cacheName w :
  storage_match (request_key request) (storage w) = None →
  network env (request_key request) = None →
  cacheFirstStrategy env request cacheName w = (Rejected NetworkError, w).
Proof. intros Hm Hn. run_async. by rewrite Hm, Hn. Qed.

Lemma refetch_without_ok_response request cacheName st :
  network env (request_key request) = None ∨
  (∃ r, network env (request_key request) = Some r ∧ ok r = false) →
  run_task env (RefetchTask request cacheName) st = st.
Proof. intros [Hn | (r & Hn & Hok)]; simpl; rewrite Hn; [done | by rewrite Hok]. Qed.

(** C6 (as amended): for a request classified Image or StaticAsset
    the listener answers with the Cache-First strategy on the cache of
    the class. On a hit the entry that [caches.match] found is returned
    as it is, whatever its age and whatever the network does, and the
    storage is untouched at the return. When the entry is older than one
    hour a refetch is started and not awaited. If that refetch yields an
    ok response that the platform's cache accepts (status other than 206,
    no Vary star), the response is written under the request key into the
    cache of the class, every other cache being left as it is: this
    replaces the entry that was returned when it came from that cache. An
    ok response that the cache refuses is dropped, the refetch having
    only opened the cache of the class. A refetch that fails or is not ok
    changes nothing. *)
Theorem cacheFirst_hit_revalidates request c w cached :
  classify request = Some c → c = Image ∨ c = StaticAsset →
  storage_match (request_key request) (storage w) = Some cached →
  fetch_listener env request
    = Some (run_strategy env CacheFirst request (dispatch c).2) ∧
  cacheFirstStrategy env request (dispatch c).2 w
  = (Fulfilled cached,
     {| storage := storage w;
        spawned := spawned w ++
          (if older_than_one_hour env (new_Date env (date_header_or_zero cached))
           then [RefetchTask request (dispatch c).2] else []);
        effects := effects w |}) ∧
  (∀ d, new_Date env (date_header_or_zero cached) = Some d →
        oneHour < now env - d →
        older_than_one_hour env (new_Date env (date_header_or_zero cached)) = true) ∧
  (∀ st r, network env (request_key request) = Some r → ok r = true →
     put_accepts r = true →
     storage_cache (dispatch c).2
       (run_task env (RefetchTask request (dispatch c).2) st)
     = Some (<[request_key request := r]>
               (default ∅ (storage_cache (dispatch c).2 st))) ∧
     (∀ n, n ≠ (dispatch c).2 →
        storage_cache n (run_task env (RefetchTask request (dispatch c).2) st)
        = storage_cache n st) ∧
     (∀ r0, storage_find (request_key request) st = Some ((dispatch c).2, r0) →
        storage_match (request_key request)
          (run_task env (RefetchTask request (dispatch c).2) st) = Some r)) ∧
  (∀ st r, network env (request_key request) = Some r → ok r = true →
     put_accepts r = false →
     run_task env (RefetchTask request (dispatch c).2) st
     = storage_open (dispatch c).2 st) ∧
  (∀ st, network env (request_key request) = None ∨
         (∃ r, network env (request_key request) = Some r ∧ ok r = false) →
     run_task env (RefetchTask request (dispatch c).2) st = st).
Proof.
  intros Hc Hclass Hm. split.
  { unfold fetch_listener. rewrite Hc. by destruct Hclass as [-> | ->]. }
  generalize (dispatch c).2. intros cacheName.
  split; [by apply cacheFirst_hit_run|]. split; [|split; [|split]].
  - intros d -> Hd. simpl. by apply Z.ltb_lt.
  - intros st r Hn Hok Hput. simpl. rewrite Hn, Hok, Hput. split; [|split].
    + rewrite storage_cache_put, decide_True, storage_cache_open by done.
      destruct (storage_cache cacheName st); [done|]. by rewrite decide_True.
    + intros n Hne. rewrite storage_cache_put, decide_False by done.
      rewrite storage_cache_open. destruct (storage_cache n st); [done|].
      by rewrite decide_False.
    + intros r0 Hf. rewrite storage_match_find.
      erewrite storage_find_put_first; [done|].
      by rewrite storage_find_open.
  - intros st r Hn Hok Hput. simpl. by rewrite Hn, Hok, Hput.
  - apply refetch_without_ok_response.
Qed.

(** C10 (as amended): a cached response without a date header gets the
    epoch as its date; whenever the clock reads more than one hour past
    the epoch it is older than one hour, so a hit on it starts a refetch
    and still returns the entry. *)
Theorem cacheFirst_no_date_header request cacheName w cached :
  storage_match (request_key request) (storage w) = Some cached →
  headers cached !! "date" = None →
  oneHour < now env →
  new_Date env (date_header_or_zero cached) = Some 0 ∧
  older_than_one_hour env (new_Date env (date_header_or_zero cached)) = true ∧
  cacheFirstStrategy env request cacheName w
  = (Fulfilled cached,
     {| storage := storage w;
        spawned := spawned w ++ [RefetchTask request cacheName];
        effects := effects w |}).
Proof.
  intros Hm Hd Hnow.
  assert (new_Date env (date_header_or_zero cached) = Some 0) as Hdate.
  { unfold date_header_or_zero. by rewrite Hd. }
  assert (older_than_one_hour env (new_Date env (date_header_or_zero cached)) = true)
    as Hold.
  { rewrite Hdate. simpl. apply Z.ltb_lt. lia. }
  split; [done|]. split; [done|].
  rewrite cacheFirst_hit_run with (cached := cached) by done. by rewrite Hold.
Qed.

(** C9: when the fetch of a strategy fails or yields a response that is
    not ok, the execution changes no cache: the storage at its return is
    the one it started with, and so is the storage after everything it
    started has completed. *)
Theorem no_write_without_ok_response request cacheName w :
  network env (request_key request) = None ∨
  (∃ r, network env (request_key request) = Some r ∧ ok r = false) →
  (storage (networkFirstStrategy env request cacheName w).2 = storage w ∧
   settle env (networkFirstStrategy env request cacheName w).2 = settle env w) ∧
  (storage (cacheFirstStrategy env request cacheName w).2 = storage w ∧
   settle env (cacheFirstStrategy env request cacheName w).2 = settle env w).
Proof.
  intros Hnet. split.
  - destruct Hnet as [Hn | (r & Hn & Hok)].
    + by rewrite networkFirst_failed.
    + by rewrite (networkFirst_not_ok _ _ _ _ r).
  - destruct (storage_match (request_key request) (storage w)) as [cached|] eqn:Hm.
    + rewrite (cacheFirst_hit_run _ _ _ cached) by done.
      split; [done|]. unfold settle. cbn [snd storage spawned].
      rewrite foldl_app.
      destruct (older_than_one_hour _ _); [|done].
      cbn [foldl]. by apply refetch_without_ok_response.
    + destruct Hnet as [Hn | (r & Hn & Hok)].
      * by rewrite cacheFirst_miss_failed.
      * by rewrite (cacheFirst_miss_not_ok _ _ _ r).
Qed.

End CacheFirst.

(** C6 as stated fails: the logo was found in the primary cache, the
    refetch succeeds, and the entry that was returned is still the old
    one afterwards; the new response went to the image cache. *)
Lemma cacheFirst_refetch_leaves_hit_entry :
  let env := online (plain 200 "new logo") in
  let run := cacheFirstStrategy env logo_request IMAGE_CACHE
               (world_of logo_storage) in
  classify logo_request = Some Image ∧
  run.1 = Fulfilled (plain 200 "old logo") ∧
  spawned run.2 = [RefetchTask logo_request IMAGE_CACHE] ∧
  network env (request_key logo_request) = Some (plain 200 "new logo") ∧
  ok (plain 200 "new logo") = true ∧
  settle env run.2
  = [(CACHE_NAME, {[ request_key logo_request := plain 200 "old logo" ]});
     (IMAGE_CACHE, {[ request_key logo_request := plain 200 "new logo" ]})] ∧
  storage_match (request_key logo_request) (settle env run.2)
  = Some (plain 200 "old logo").
Proof. repeat split; reflexivity. Qed.

Lemma cacheFirst_hit_revalidates_logo :
  cacheFirstStrategy (online (plain 200 "new logo")) logo_request IMAGE_CACHE
    (world_of logo_storage)
  = (Fulfilled (plain 200 "old logo"),
     {| storage := logo_storage;
        spawned := [RefetchTask logo_request IMAGE_CACHE];
        effects := [] |}).
Proof.
  apply (cacheFirst_hit_revalidates (online (plain 200 "new logo")) logo_request Image
           (world_of logo_storage) (plain 200 "old logo")).
  - reflexivity.
  - by left.
  - reflexivity.
Defined.

(** C10 as stated fails: with a clock that reads exactly one hour past
    the epoch the entry without a date header is not older than one hour;
    the hit returns it and starts nothing. *)
Lemma cacheFirst_no_date_header_unset_clock :
  let run := cacheFirstStrategy unset_clock logo_request IMAGE_CACHE
               (world_of logo_storage) in
  classify logo_request = Some Image ∧
  storage_match (request_key logo_request) logo_storage
  = Some (plain 200 "old logo") ∧
  headers (plain 200 "old logo") !! "date" = None ∧
  new_Date unset_clock (date_header_or_zero (plain 200 "old logo")) = Some 0 ∧
  older_than_one_hour unset_clock (Some 0) = false ∧
  run = (Fulfilled (plain 200 "old logo"), world_of logo_storage).
Proof. repeat split; reflexivity. Qed.

Lemma cacheFirst_no_date_header_logo :
  cacheFirstStrategy offline logo_request IMAGE_CACHE (world_of logo_storage)
  = (Fulfilled (plain 200 "old logo"),
     {| storage := logo_storage;
        spawned := [RefetchTask logo_request IMAGE_CACHE];
        effects := [] |}).
Proof.
  apply (cacheFirst_no_date_header offline logo_request IMAGE_CACHE
           (world_of logo_storage) (plain 200 "old logo")).
  - reflexivity.
  - reflexivity.
  - reflexivity.
Defined.

Lemma no_write_without_ok_response_logo :
  settle offline
    (cacheFirstStrategy offline logo_request IMAGE_CACHE (world_of logo_storage)).2
  = logo_storage.
Proof.
  apply (no_write_without_ok_response offline logo_request IMAGE_CACHE
           (world_of logo_storage)).
  by left.
Defined.

(** ** Install *)

Section Install.

Variable env : Platform.

Lemma storage_cache_put_all name entries n st :
  storage_cache n (storage_put_all name entries st)
  = if decide (n = name)
    then (λ c, foldl (λ c e, <[e.1 := e.2]> c) c entries) <$> storage_cache n st
    else storage_cache n st.
Proof.
  unfold storage_put_all. revert st.
  induction entries as [|e entries IH]; intros st; simpl.
  - case_decide; [by destruct (storage_cache n st) | done].
  - rewrite IH, storage_cache_put. case_decide; [|done].
    by destruct (storage_cache n st).
Qed.

Lemma fetch_all_inr urls entries :
  fetch_all env urls = inr entries →
  all_ok env urls = true ∧
  ∀ old, precached env urls old (foldl (λ c e, <[e.1 := e.2]> c) old entries).
Proof.
  revert entries. induction urls as [|u urls IH]; intros entries; simpl.
  - intros [= <-]. split; [done|]. intros old k. cbn [foldl].
    case_decide as Hk; [|done]. rewrite fmap_nil in Hk. by apply elem_of_nil in Hk.
  - destruct (network env (url_key env u)) as [r|] eqn:Hn; [|done].
    simpl. destruct (ok r && put_accepts r) eqn:Hok; [|done].
    destruct (fetch_all env urls) as [e|l]; [done|].
    intros [= <-]. destruct (IH l eq_refl) as [Hall Hpre].
    split; [done|]. intros old k. cbn [foldl fst snd].
    rewrite Hpre. rewrite fmap_cons.
    destruct (decide (k ∈ url_key env <$> urls)) as [Hk|Hk].
    + rewrite decide_True; [done | by right].
    + destruct (decide (k = url_key env u)) as [->|Hne].
      * rewrite lookup_insert_eq, decide_True; [done | by left].
      * rewrite lookup_insert_ne by done.
        rewrite decide_False; [done|]. rewrite not_elem_of_cons. tauto.
Qed.

Lemma fetch_all_inl urls e :
  fetch_all env urls = inl e → all_ok env urls = false.
Proof.
  revert e. induction urls as [|u urls IH]; intros e; simpl; [done|].
  destruct (network env (url_key env u)) as [r|] eqn:Hn; [|done].
  simpl. destruct (ok r && put_accepts r); [|done].
  destruct (fetch_all env urls) as [e'|l]; [|done]. intros _. by apply (IH e').
Qed.

Lemma install_run w :
  install_listener env w
  = (match fetch_all env CRITICAL_RESOURCES, fetch_all env STATIC_ASSETS with
     | inr _, inr _ => Fulfilled tt
     | inl e, _ | inr _, inl e => Rejected e
     end,
     {| storage :=
          after_addAll env STATIC_CACHE STATIC_ASSETS
            (after_addAll env CACHE_NAME CRITICAL_RESOURCES (storage w));
        spawned := spawned w;
        effects := effects w ++
          (if all_ok env CRITICAL_RESOURCES && all_ok env STATIC_ASSETS
           then [SkipWaiting] else []) |}).
Proof.
  unfold install_listener, after_addAll.
  generalize CRITICAL_RESOURCES STATIC_ASSETS. intros crit stat.
  unfold Promise_all2, cache_addAll, emit.
  unfold mbind, Async_bind, mret, caches_open, with_storage. cbn.
  destruct (fetch_all env crit) as [e1|es1] eqn:H1,
           (fetch_all env stat) as [e2|es2] eqn:H2;
    repeat match goal with
      | H : fetch_all _ _ = inl _ |- _ => rewrite (fetch_all_inl _ _ H); clear H
      | H : fetch_all _ _ = inr _ |- _ =>
          rewrite (proj1 (fetch_all_inr _ _ H)); clear H
      end;
    rewrite ?andb_false_r, ?app_nil_r; reflexivity.
Qed.

(** One cache after [open] and [addAll]: populated when all its
    resources were fetched, left as it was otherwise. *)
Lemma after_addAll_cache name urls st :
  is_Some (storage_cache name (after_addAll env name urls st)) ∧
  (∀ n, n ≠ name →
     storage_cache n (after_addAll env name urls st) = storage_cache n st) ∧
  (if all_ok env urls
   then precached env urls (cache_of name st)
          (cache_of name (after_addAll env name urls st))
   else cache_of name (after_addAll env name urls st) = cache_of name st).
Proof.
  assert (storage_cache name (storage_open name st) = Some (cache_of name st))
    as Hopen.
  { rewrite storage_cache_open. unfold cache_of.
    destruct (storage_cache name st); [done|]. by rewrite decide_True. }
  assert (∀ n, n ≠ name →
            storage_cache n (storage_open name st) = storage_cache n st) as Hother.
  { intros n Hne. rewrite storage_cache_open.
    destruct (storage_cache n st); [done|]. by rewrite decide_False. }
  unfold after_addAll. destruct (fetch_all env urls) as [e|es] eqn:Hf.
  - rewrite (fetch_all_inl _ _ Hf). unfold cache_of at 1. rewrite Hopen.
    split; [done|]. split; [done|]. done.
  - destruct (fetch_all_inr _ _ Hf) as [-> Hpre].
    split; [|split].
    + rewrite storage_cache_put_all, decide_True, Hopen by done. done.
    + intros n Hne. rewrite storage_cache_put_all, decide_False by done. auto.
    + unfold cache_of at 2.
      rewrite storage_cache_put_all, decide_True, Hopen by done. apply Hpre.
Qed.

Lemma all_ok_network urls k :
  all_ok env urls = true → k ∈ url_key env <$> urls →
  ∃ r, network env k = Some r ∧ ok r = true.
Proof.
  intros Hall (u & -> & Hu)%list_elem_of_fmap.
  unfold all_ok in Hall. rewrite forallb_forall in Hall.
  specialize (Hall u). rewrite <- list_elem_of_In in Hall. specialize (Hall Hu).
  destruct (network env (url_key env u)) as [r|]; [|done].
  simpl in Hall. apply andb_true_iff in Hall as [Hok _]. by exists r.
Qed.

Lemma precached_empty urls new :
  all_ok env urls = true → precached env urls ∅ new →
  ∀ k, is_Some (new !! k) ↔ k ∈ url_key env <$> urls.
Proof.
  intros Hall Hpre k. rewrite Hpre. case_decide as Hk.
  - destruct (all_ok_network _ _ Hall Hk) as (r & -> & _). split; [done | by eexists].
  - rewrite lookup_empty. split; [by intros [? ?] | done].
Qed.

(** C7 (as amended): install opens the primary and the static-asset
    cache and writes into each the fetched response of every URL of its
    manifest list, and nothing else, so a cache that held nothing before
    holds exactly the manifest entries while entries already stored under
    other keys stay. Each cache is populated entirely or not at all: when
    one of its resources cannot be fetched with a response that [addAll]
    accepts (ok, status other than 206, no Vary star) its contents are
    unchanged, the install is rejected and [skipWaiting] is not called. *)
Theorem install_precache w :
  is_Some (storage_cache CACHE_NAME (storage (install_listener env w).2)) ∧
  is_Some (storage_cache STATIC_CACHE (storage (install_listener env w).2)) ∧
  (if all_ok env CRITICAL_RESOURCES
   then precached env CRITICAL_RESOURCES
          (cache_of CACHE_NAME (storage w))
          (cache_of CACHE_NAME (storage (install_listener env w).2))
   else cache_of CACHE_NAME (storage (install_listener env w).2)
        = cache_of CACHE_NAME (storage w)) ∧
  (if all_ok env STATIC_ASSETS
   then precached env STATIC_ASSETS
          (cache_of STATIC_CACHE (storage w))
          (cache_of STATIC_CACHE (storage (install_listener env w).2))
   else cache_of STATIC_CACHE (storage (install_listener env w).2)
        = cache_of STATIC_CACHE (storage w)) ∧
  (∀ n, n ≠ CACHE_NAME → n ≠ STATIC_CACHE →
     storage_cache n (storage (install_listener env w).2)
     = storage_cache n (storage w)) ∧
  (all_ok env CRITICAL_RESOURCES && all_ok env STATIC_ASSETS = true →
     (install_listener env w).1 = Fulfilled tt ∧
     effects (install_listener env w).2 = effects w ++ [SkipWaiting]) ∧
  (all_ok env CRITICAL_RESOURCES && all_ok env STATIC_ASSETS = false →
     (∃ e, (install_listener env w).1 = Rejected e) ∧
     effects (install_listener env w).2 = effects w) ∧
  (all_ok env CRITICAL_RESOURCES = true →
     cache_of CACHE_NAME (storage w) = ∅ →
     ∀ k, is_Some (cache_of CACHE_NAME (storage (install_listener env w).2) !! k)
          ↔ k ∈ url_key env <$> CRITICAL_RESOURCES) ∧
  (all_ok env STATIC_ASSETS = true →
     cache_of STATIC_CACHE (storage w) = ∅ →
     ∀ k, is_Some (cache_of STATIC_CACHE (storage (install_listener env w).2) !! k)
          ↔ k ∈ url_key env <$> STATIC_ASSETS).
Proof.
  rewrite install_run. cbn [fst snd storage effects].
  set (st2 := after_addAll env CACHE_NAME CRITICAL_RESOURCES (storage w)).
  destruct (after_addAll_cache CACHE_NAME CRITICAL_RESOURCES (storage w))
    as (H1s & H1o & H1p).
  destruct (after_addAll_cache STATIC_CACHE STATIC_ASSETS st2)
    as (H2s & H2o & H2p).
  fold st2 in H1s, H1o, H1p.
  set (st4 := after_addAll env STATIC_CACHE STATIC_ASSETS st2) in *.
  assert (CACHE_NAME ≠ STATIC_CACHE) as Hne by done.
  assert (cache_of CACHE_NAME st4 = cache_of CACHE_NAME st2) as Hdoc.
  { unfold cache_of. by rewrite H2o. }
  assert (cache_of STATIC_CACHE st2 = cache_of STATIC_CACHE (storage w)) as Hstat.
  { unfold cache_of. by rewrite H1o. }
  rewrite Hdoc. rewrite Hstat in H2p.
  split. { by rewrite H2o. }
  split; [done|]. split; [done|]. split; [done|].
  split. { intros n Hn1 Hn2. by rewrite H2o, H1o. }
  split; [|split; [|split]].
  - intros Hall. rewrite Hall. split; [|done].
    apply andb_true_iff in Hall as [Ha1 Ha2].
    destruct (fetch_all env CRITICAL_RESOURCES) as [e|] eqn:Hf1.
    { apply fetch_all_inl in Hf1. congruence. }
    destruct (fetch_all env STATIC_ASSETS) as [e|] eqn:Hf2; [|done].
    apply fetch_all_inl in Hf2. congruence.
  - intros Hall. rewrite Hall, app_nil_r. split; [|done].
    destruct (fetch_all env CRITICAL_RESOURCES) as [e|es1] eqn:Hf1; [by eexists|].
    destruct (fetch_all env STATIC_ASSETS) as [e|es2] eqn:Hf2; [by eexists|].
    apply fetch_all_inr in Hf1 as [Ha1 _]. apply fetch_all_inr in Hf2 as [Ha2 _].
    rewrite Ha1, Ha2 in Hall. done.
  - intros Hall Hempty. rewrite Hall, Hempty in H1p.
    by apply precached_empty.
  - intros Hall Hempty. rewrite Hall, Hempty in H2p.
    by apply precached_empty.
Qed.

End Install.

(** C7 as stated fails on a primary cache that already holds a visited
    page: after a successful install the page is still there, next to
    the manifest entries. *)
Lemma install_keeps_other_entries :
  (install_listener serving_manifest (world_of visited_storage)).1 = Fulfilled tt ∧
  cache_of CACHE_NAME
    (storage (install_listener serving_manifest (world_of visited_storage)).2)
    !! request_key page_request = Some (plain 200 "members page") ∧
  request_key page_request ∉ url_key serving_manifest <$> CRITICAL_RESOURCES.
Proof.
  split; [reflexivity|]. split; [reflexivity|].
  apply (bool_decide_unpack
           (request_key page_request
              ∉ url_key serving_manifest <$> CRITICAL_RESOURCES)).
  by vm_compute.
Qed.

(** A network that answers the manifest with partial responses: they are
    ok, [addAll] refuses them, the install is rejected and both caches
    are opened and left empty. *)
Lemma install_rejects_partial_responses :
  ok (plain 206 "bytes") = true ∧
  install_listener (online (plain 206 "bytes")) (world_of [])
  = (Rejected TypeError, world_of [(CACHE_NAME, ∅); (STATIC_CACHE, ∅)]).
Proof. split; reflexivity. Qed.

Lemma install_precache_fresh :
  (install_listener serving_manifest (world_of [])).1 = Fulfilled tt ∧
  effects (install_listener serving_manifest (world_of [])).2 = [SkipWaiting].
Proof.
  apply (install_precache serving_manifest (world_of [])).
  reflexivity.
Defined.

(** ** Push *)

(** C8: every push event shows a notification, with the open and close
    actions. When the payload does not parse, the body is the payload's
    text and the title, icon and badge are the defaults; without a
    payload all four are the defaults. *)
Theorem push_always_notifies (env : Platform) (event : PushEvent) (w : World) :
  ∃ title options,
    push_listener env event w
    = (Fulfilled tt,
       {| storage := storage w; spawned := spawned w;
          effects := effects w ++ [ShowNotification title options] |}) ∧
    n_actions options = notification_actions ∧
    (∀ d, data event = Some d → json d = None →
       title = Some (JStr "Amino Gym") ∧
       n_body options = Some (JStr (text d)) ∧
       n_icon options = Some (JStr "/yacin-gym-logo.png") ∧
       n_badge options = Some (JStr "/yacin-gym-logo.png")) ∧
    (data event = None →
       title = default_notificationData !! "title" ∧
       n_body options = default_notificationData !! "body" ∧
       n_icon options = default_notificationData !! "icon" ∧
       n_badge options = default_notificationData !! "badge").
Proof.
  eexists _, _. split; [reflexivity|]. split; [reflexivity|]. split.
  - intros d Hd Hj. unfold push_notificationData. rewrite Hd, Hj. cbn.
    repeat split; by simplify_map_eq.
  - intros Hd. unfold push_notificationData. rewrite Hd. done.
Qed.

Lemma push_malformed_payload :
  ∃ title options,
    push_listener offline malformed_push (world_of [])
    = (Fulfilled tt,
       {| storage := []; spawned := [];
          effects := [ShowNotification title options] |}) ∧
    title = Some (JStr "Amino Gym") ∧
    n_body options = Some (JStr malformed_text) ∧
    n_icon options = Some (JStr "/yacin-gym-logo.png") ∧
    n_badge options = Some (JStr "/yacin-gym-logo.png").
Proof.
  destruct (push_always_notifies offline malformed_push (world_of []))
    as (title & options & Hrun & _ & Hbad & _).
  exists title, options. split; [exact Hrun|].
  exact (Hbad _ eq_refl eq_refl).
Defined.

(** ** More on the two strategies *)


Lemma storage_find_put_fresh name key r st :
  storage_find key st = None → is_Some (storage_cache name st) →
  storage_find key (storage_put name key r st) = Some (name, r).
Proof.
  induction st as [|[n0 c0] st IH]; simpl.
  - by intros _ [? ?].
  - destruct (c0 !! key) as [r1|] eqn:H1; [done|]. intros Hf Hc.
    destruct (decide (n0 = name)) as [->|]; simpl.
    + by rewrite lookup_insert_eq.
    + rewrite H1. by apply IH.
Qed.

Lemma storage_cache_open_ne name n st :
  n ≠ name → storage_cache n (storage_open name st) = storage_cache n st.
Proof.
  intros Hne. rewrite storage_cache_open.
  destruct (storage_cache n st); [done|]. by rewrite decide_False.
Qed.

Lemma storage_open_is_Some name st :
  is_Some (storage_cache name (storage_open name st)).
Proof.
  rewrite storage_cache_open. destruct (storage_cache name st); [done|].
  by rewrite decide_True.
Qed.


Section StrategiesMore.

Variable env : Platform.

(** Network First, no network, nothing cached, not a navigation: the
    failure of the fetch is what the caller gets, and nothing is written
    or started. *)
Theorem networkFirst_failure_propagates request cacheName w :
  network env (request_key request) = None →
  storage_match (request_key request) (storage w) = None →
  mode request ≠ "navigate" →
  networkFirstStrategy env request cacheName w = (Rejected NetworkError, w).
Proof.
  intros Hn Hm Hnav. rewrite networkFirst_failed by done. rewrite Hm.
  by destruct (String.eqb_spec (mode request) "navigate").
Qed.

(** Network First never answers from a cache while the network answers:
    whatever response the fetch yields, ok or not, is the one returned,
    whatever the caches hold under the key. *)
Theorem networkFirst_prefers_network request cacheName w r :
  network env (request_key request) = Some r →
  (networkFirstStrategy env request cacheName w).1 = Fulfilled (Some r) ∧
  effects (networkFirstStrategy env request cacheName w).2 = effects w.
Proof.
  intros Hn. destruct (ok r) eqn:Hok.
  - by rewrite (networkFirst_ok _ _ _ _ r).
  - by rewrite (networkFirst_not_ok _ _ _ _ r).
Qed.



(** Cache First on a miss without an ok response: a failed fetch rejects
    with the network error, a response that is not ok is returned; in
    both cases nothing is stored, so the next identical request is a miss
    again. *)
Theorem cacheFirst_miss_without_ok request cacheName w :
  storage_match (request_key request) (storage w) = None →
  (network env (request_key request) = None →
     cacheFirstStrategy env request cacheName w = (Rejected NetworkError, w)) ∧
  (∀ r, network env (request_key request) = Some r → ok r = false →
     cacheFirstStrategy env request cacheName w = (Fulfilled r, w)) ∧
  (network env (request_key request) = None ∨
   (∃ r, network env (request_key request) = Some r ∧ ok r = false) →
     storage_match (request_key request)
       (settle env (cacheFirstStrategy env request cacheName w).2)
     = storage_match (request_key request) (settle env w)).
Proof.
  intros Hm. split; [|split].
  - intros Hn. by apply cacheFirst_miss_failed.
  - intros r Hn Hok. by apply cacheFirst_miss_not_ok.
  - intros [Hn | (r & Hn & Hok)].
    + by rewrite cacheFirst_miss_failed.
    + by rewrite (cacheFirst_miss_not_ok _ _ _ _ r).
Qed.

(** A cached entry whose date header does not parse is never refreshed:
    the comparison with NaN is false at every clock reading, so a hit on
    it returns the entry and starts nothing. *)
Theorem cacheFirst_unparseable_date request cacheName w cached s :
  storage_match (request_key request) (storage w) = Some cached →
  headers cached !! "date" = Some s → s ≠ "" →
  Date_parse env s = None →
  cacheFirstStrategy env request cacheName w = (Fulfilled cached, w).
Proof.
  intros Hm Hd Hs Hp. rewrite (cacheFirst_hit_run _ _ _ _ cached) by done.
  unfold date_header_or_zero. rewrite Hd.
  destruct (String.eqb_spec s "") as [|_]; [done|].
  cbn [new_Date]. rewrite Hp. cbn [older_than_one_hour].
  rewrite app_nil_r. by destruct w.
Qed.

(** A cached entry dated at most one hour ago (or in the future) is
    returned without any refetch and without touching anything; an hour
    and a millisecond is enough to start one. *)
Theorem cacheFirst_fresh_entry request cacheName w cached s d :
  storage_match (request_key request) (storage w) = Some cached →
  headers cached !! "date" = Some s → s ≠ "" →
  Date_parse env s = Some d →
  (now env - d ≤ 3600000 →
     cacheFirstStrategy env request cacheName w = (Fulfilled cached, w)) ∧
  (3600000 < now env - d →
     spawned (cacheFirstStrategy env request cacheName w).2
     = spawned w ++ [RefetchTask request cacheName]).
Proof.
  intros Hm Hd Hs Hp. rewrite (cacheFirst_hit_run _ _ _ _ cached) by done.
  unfold date_header_or_zero. rewrite Hd.
  destruct (String.eqb_spec s "") as [|_]; [done|].
  cbn [new_Date]. rewrite Hp. cbn [older_than_one_hour]. unfold oneHour.
  split; intros Hage.
  - rewrite (proj2 (Z.ltb_ge _ _)) by lia. rewrite app_nil_r. by destruct w.
  - by rewrite (proj2 (Z.ltb_lt _ _)) by lia.
Qed.

End StrategiesMore.

(** ** More on the lifecycle *)

Lemma activate_listener_run (w : World) :
  activate_listener w
  = (Fulfilled tt,
     {| storage := filter (λ p, p.1 ∈ current_caches) (storage w);
        spawned := spawned w; effects := effects w ++ [ClientsClaim] |}).
Proof.
  destruct (Promise_all_deletes (storage_keys (storage w)) w) as [l Hl].
  unfold activate_listener, Promise_all2.
  unfold mbind at 1, Async_bind at 1.
  unfold mbind at 1, Async_bind at 1. unfold caches_keys at 1.
  rewrite Hl. unfold emit, mret, Async_ret, with_storage. cbn.
  by rewrite prune_keys.
Qed.

Lemma storage_cache_filter (P : string → Prop) `{∀ n, Decision (P n)} n
    (st : list (string * Cache)) :
  storage_cache n (filter (λ p : string * Cache, P p.1) st)
  = if decide (P n) then storage_cache n st else None.
Proof.
  induction st as [|[n0 c0] st IH]; [by case_decide|].
  rewrite filter_cons. cbn [fst]. destruct (decide (P n0)) as [HP|HP]; cbn.
  - destruct (decide (n0 = n)) as [->|]; [by rewrite decide_True|].
    rewrite IH. by destruct (decide (P n)).
  - rewrite IH. destruct (decide (n0 = n)) as [->|]; by destruct (decide (P n)).
Qed.

Lemma storage_find_filter (P : string → Prop) `{∀ n, Decision (P n)} key
    (st : list (string * Cache)) :
  (∀ n r, storage_find key st = Some (n, r) → P n →
     storage_find key (filter (λ p : string * Cache, P p.1) st) = Some (n, r)) ∧
  (∀ n r, storage_find key (filter (λ p : string * Cache, P p.1) st) = Some (n, r) →
     P n).
Proof.
  induction st as [|[n0 c0] st [IH1 IH2]]; [done|].
  rewrite filter_cons. cbn [fst]. split.
  - intros n r. cbn [storage_find].
    destruct (c0 !! key) as [r0|] eqn:H0.
    + intros [= -> ->] HP. rewrite decide_True by done. cbn. by rewrite H0.
    + intros Hf HP. destruct (decide (P n0)); [|by apply IH1].
      cbn. rewrite H0. by apply IH1.
  - intros n r. destruct (decide (P n0)) as [HP|HP]; [|by apply IH2].
    cbn. destruct (c0 !! key); [by intros [= <- _] | by apply IH2].
Qed.

(** Activation loses nothing of a current cache: each of the four keeps
    its contents, every other name is gone, an answer that
    [caches.match] took from a current cache stays the answer, and
    afterwards every answer comes from a current cache. *)
Theorem activate_keeps_current_contents (w : World) :
  (∀ n, storage_cache n (storage (activate_listener w).2)
        = if decide (n ∈ current_caches) then storage_cache n (storage w)
          else None) ∧
  (∀ key n r, storage_find key (storage w) = Some (n, r) →
     n ∈ current_caches →
     storage_find key (storage (activate_listener w).2) = Some (n, r)) ∧
  (∀ key n r, storage_find key (storage (activate_listener w).2) = Some (n, r) →
     n ∈ current_caches).
Proof.
  rewrite activate_listener_run. cbn [snd storage].
  split; [|split].
  - intros n.
    exact (storage_cache_filter (λ n, n ∈ current_caches) n (storage w)).
  - intros key.
    exact (proj1 (storage_find_filter (λ n, n ∈ current_caches) key (storage w))).
  - intros key.
    exact (proj2 (storage_find_filter (λ n, n ∈ current_caches) key (storage w))).
Qed.

(** Activating twice is activating once. *)
Theorem activate_idempotent (w : World) :
  storage (activate_listener (activate_listener w).2).2
  = storage (activate_listener w).2.
Proof.
  rewrite !activate_listener_run. cbn [snd storage].
  unfold CacheStorage. rewrite list_filter_filter.
  apply list_filter_iff. tauto.
Qed.

Section LifecycleMore.

Variable env : Platform.

Lemma networkFirst_other_caches request cacheName w n :
  spawned w = [] → n ≠ cacheName →
  storage_cache n (settle env (networkFirstStrategy env request cacheName w).2)
  = storage_cache n (storage w).
Proof.
  intros Hsp Hne. unfold settle.
  destruct (network env (request_key request)) as [r|] eqn:Hn.
  - destruct (ok r) eqn:Hok.
    + rewrite (networkFirst_ok env _ _ _ r) by done.
      cbn [snd storage spawned]. rewrite Hsp. cbn [app foldl run_task].
      destruct (put_accepts (clone r));
        rewrite ?storage_cache_put, ?decide_False; by try apply storage_cache_open_ne.
    + rewrite (networkFirst_not_ok env _ _ _ r) by done. cbn [snd]. by rewrite Hsp.
  - rewrite networkFirst_failed by done. cbn [snd]. by rewrite Hsp.
Qed.

Lemma run_task_other_caches t n st :
  (∀ name key r, t = PutTask name key r → n ≠ name) →
  (∀ request name, t = RefetchTask request name → n ≠ name) →
  storage_cache n (run_task env t st) = storage_cache n st.
Proof.
  intros Hput Hre. destruct t as [name key r|request name]; cbn [run_task].
  - destruct (put_accepts r); [|done].
    rewrite storage_cache_put, decide_False; [done|]. by eapply Hput.
  - destruct (network env (request_key request)) as [r|]; [|done].
    destruct (ok r); [|done].
    assert (n ≠ name) as Hne by (by eapply Hre).
    destruct (put_accepts r);
      rewrite ?storage_cache_put, ?decide_False; by try apply storage_cache_open_ne.
Qed.

Lemma cacheFirst_other_caches request cacheName w n :
  spawned w = [] → n ≠ cacheName →
  storage_cache n (settle env (cacheFirstStrategy env request cacheName w).2)
  = storage_cache n (storage w).
Proof.
  intros Hsp Hne. unfold settle.
  destruct (storage_match (request_key request) (storage w)) as [cached|] eqn:Hm.
  - rewrite (cacheFirst_hit_run env _ _ _ cached) by done.
    cbn [snd storage spawned]. rewrite Hsp. cbn [app].
    destruct (older_than_one_hour _ _); [|done]. cbn [foldl].
    apply run_task_other_caches; congruence.
  - destruct (network env (request_key request)) as [r|] eqn:Hn.
    + destruct (ok r) eqn:Hok.
      * rewrite (cacheFirst_miss_ok env _ _ _ r) by done.
        cbn [snd storage spawned]. rewrite Hsp. cbn [app foldl run_task].
        destruct (put_accepts (clone r));
          rewrite ?storage_cache_put, ?decide_False;
          by try apply storage_cache_open_ne.
      * rewrite (cacheFirst_miss_not_ok env _ _ _ r) by done.
        cbn [snd]. by rewrite Hsp.
    + rewrite cacheFirst_miss_failed by done. cbn [snd]. by rewrite Hsp.
Qed.

(** Handling a request changes at most one cache, the one of the
    request's class, and that cache is one of the four current ones: a
    later activation keeps it as the handler left it. *)
Theorem fetch_listener_touches_own_cache request c handler w :
  classify request = Some c →
  fetch_listener env request = Some handler →
  spawned w = [] →
  (dispatch c).2 ∈ current_caches ∧
  (∀ n, n ≠ (dispatch c).2 →
     storage_cache n (settle env (handler w).2) = storage_cache n (storage w)) ∧
  storage_cache (dispatch c).2
    (storage (activate_listener (world_of (settle env (handler w).2))).2)
  = storage_cache (dispatch c).2 (settle env (handler w).2).
Proof.
  intros Hc Hh Hsp. unfold fetch_listener in Hh. rewrite Hc in Hh.
  injection Hh as <-.
  assert ((dispatch c).2 ∈ current_caches) as Hcur.
  { unfold current_caches. destruct c; cbn; set_solver. }
  split; [done|]. split.
  - intros n Hne. destruct c; cbn [dispatch fst snd run_strategy] in *.
    + by apply networkFirst_other_caches.
    + unfold mbind, Async_bind.
      pose proof (cacheFirst_other_caches request IMAGE_CACHE w n Hsp Hne) as H.
      destruct (cacheFirstStrategy env request IMAGE_CACHE w) as [[r|e] w']; exact H.
    + unfold mbind, Async_bind.
      pose proof (cacheFirst_other_caches request STATIC_CACHE w n Hsp Hne) as H.
      destruct (cacheFirstStrategy env request STATIC_CACHE w) as [[r|e] w']; exact H.
    + by apply networkFirst_other_caches.
  - rewrite activate_listener_run. cbn [snd storage world_of].
    pose proof (storage_cache_filter (λ n, n ∈ current_caches) (dispatch c).2
                  (settle env (run_strategy env (dispatch c).1 request
                                 (dispatch c).2 w).2)) as Hkeep.
    rewrite decide_True in Hkeep by done. exact Hkeep.
Qed.

End LifecycleMore.

Lemma string_app_inj_l (s a b : string) : s +:+ a = s +:+ b → a = b.
Proof.
  induction s as [|c s IH]; [done|]. rewrite !app_String. intros [= H]. auto.
Qed.

Lemma storage_find_put_ne name key key' r st :
  key ≠ key' →
  storage_find key (storage_put name key' r st) = storage_find key st.
Proof.
  intros Hne. induction st as [|[n0 c0] st IH]; [done|]. simpl.
  destruct (decide (n0 = name)) as [->|]; simpl.
  - by rewrite lookup_insert_ne.
  - by rewrite IH.
Qed.

Lemma answers_first_put name key key' r st :
  is_Some (storage_cache name st) →
  answers_first name key st → answers_first name key (storage_put name key' r st).
Proof.
  intros Hc Hf. destruct (decide (key = key')) as [<-|Hne].
  - right. exists r. destruct Hf as [Hf | [r0 Hf]].
    + by apply storage_find_put_fresh.
    + by eapply storage_find_put_first.
  - unfold answers_first. by rewrite storage_find_put_ne.
Qed.

Lemma answers_first_put_all name key es st :
  is_Some (storage_cache name st) →
  answers_first name key st → answers_first name key (storage_put_all name es st).
Proof.
  unfold storage_put_all. revert st.
  induction es as [|e es IH]; intros st Hc Hf; [done|]. cbn [foldl].
  apply IH.
  - rewrite storage_cache_put. case_decide; [|done]. by destruct Hc as [c ->].
  - by apply answers_first_put.
Qed.

Lemma storage_find_put_all_ne name key es st :
  key ∉ es.*1 →
  storage_find key (storage_put_all name es st) = storage_find key st.
Proof.
  unfold storage_put_all. revert st.
  induction es as [|e es IH]; intros st Hk; [done|]. cbn [foldl].
  rewrite fmap_cons, not_elem_of_cons in Hk. destruct Hk as [Hne Hk].
  rewrite IH by done. by apply storage_find_put_ne.
Qed.

(** When the first cache to answer for the key is [name], the answer is
    what that cache holds. *)
Lemma storage_find_of_cache name key st c r :
  answers_first name key st →
  storage_cache name st = Some c → c !! key = Some r →
  storage_find key st = Some (name, r).
Proof.
  intros [Hf | [r0 Hf]] Hc Hr.
  - destruct (storage_find_is_Some _ _ _ _ _ Hc Hr) as [? ?]. congruence.
  - by rewrite (storage_find_in_cache _ _ _ _ _ _ Hf Hc Hr) in Hf.
Qed.

Section InstallMore.

Variable env : Platform.

Lemma fetch_all_keys urls es :
  fetch_all env urls = inr es → es.*1 = url_key env <$> urls.
Proof.
  revert es. induction urls as [|u urls IH]; intros es; simpl.
  - by intros [= <-].
  - destruct (network env (url_key env u)) as [r|]; [|done].
    destruct (ok r && put_accepts r); [|done].
    destruct (fetch_all env urls) as [|l]; [done|].
    intros [= <-]. rewrite fmap_cons. cbn. f_equal. by apply IH.
Qed.

Lemma after_addAll_answers_first name urls key st :
  answers_first name key st →
  answers_first name key (after_addAll env name urls st).
Proof.
  intros Hf.
  assert (answers_first name key (storage_open name st)) as Hopen.
  { unfold answers_first. by rewrite storage_find_open. }
  unfold after_addAll. destruct (fetch_all env urls); [done|].
  apply answers_first_put_all; [apply storage_open_is_Some | done].
Qed.

Lemma after_addAll_other_key name urls key st :
  key ∉ url_key env <$> urls →
  storage_find key (after_addAll env name urls st) = storage_find key st.
Proof.
  intros Hk. unfold after_addAll.
  destruct (fetch_all env urls) as [|es] eqn:Hf.
  - apply storage_find_open.
  - rewrite storage_find_put_all_ne, storage_find_open; [done|].
    by rewrite (fetch_all_keys _ _ Hf).
Qed.

Lemma storage_cache_Some_cache_of name st :
  is_Some (storage_cache name st) → storage_cache name st = Some (cache_of name st).
Proof. intros [c Hc]. unfold cache_of. by rewrite Hc. Qed.

Lemma after_addAll_again name urls st :
  cache_of name (after_addAll env name urls (after_addAll env name urls st))
  = cache_of name (after_addAll env name urls st).
Proof.
  destruct (after_addAll_cache env name urls st) as (_ & _ & H1).
  destruct (after_addAll_cache env name urls (after_addAll env name urls st))
    as (_ & _ & H2).
  destruct (all_ok env urls); [|done].
  apply map_eq. intros k. rewrite H2, H1. by case_decide.
Qed.

(** Repeating the install is harmless: with the same network, a second
    run leaves every cache as the first run left it. *)
Theorem install_twice w n :
  storage_cache n (storage (install_listener env (install_listener env w).2).2)
  = storage_cache n (storage (install_listener env w).2).
Proof.
  rewrite !install_run. cbn [snd storage].
  set (a := after_addAll env CACHE_NAME CRITICAL_RESOURCES (storage w)).
  set (b := after_addAll env STATIC_CACHE STATIC_ASSETS a).
  set (a' := after_addAll env CACHE_NAME CRITICAL_RESOURCES b).
  assert (CACHE_NAME ≠ STATIC_CACHE) as Hne by done.
  destruct (after_addAll_cache env CACHE_NAME CRITICAL_RESOURCES (storage w))
    as (Ha1 & Ha2 & Ha3). fold a in Ha1, Ha2, Ha3.
  destruct (after_addAll_cache env STATIC_CACHE STATIC_ASSETS a)
    as (Hb1 & Hb2 & Hb3). fold b in Hb1, Hb2, Hb3.
  destruct (after_addAll_cache env CACHE_NAME CRITICAL_RESOURCES b)
    as (Ha'1 & Ha'2 & Ha'3). fold a' in Ha'1, Ha'2, Ha'3.
  destruct (after_addAll_cache env STATIC_CACHE STATIC_ASSETS a')
    as (Hb'1 & Hb'2 & Hb'3).
  destruct (decide (n = STATIC_CACHE)) as [->|Hn1].
  - (* the static cache: untouched by the second primary phase *)
    rewrite (storage_cache_Some_cache_of _ _ Hb'1),
            (storage_cache_Some_cache_of _ _ Hb1). f_equal.
    assert (cache_of STATIC_CACHE a' = cache_of STATIC_CACHE b) as Hsame.
    { unfold cache_of. by rewrite Ha'2. }
    destruct (all_ok env STATIC_ASSETS).
    + apply map_eq. intros k. rewrite Hb'3, Hsame, Hb3. by case_decide.
    + by rewrite Hb'3.
  - rewrite Hb'2 by done.
    destruct (decide (n = CACHE_NAME)) as [->|Hn2].
    + rewrite (storage_cache_Some_cache_of _ _ Ha'1).
      rewrite Hb2 by done. rewrite (storage_cache_Some_cache_of _ _ Ha1). f_equal.
      assert (cache_of CACHE_NAME b = cache_of CACHE_NAME a) as Hsame.
      { unfold cache_of. by rewrite Hb2. }
      destruct (all_ok env CRITICAL_RESOURCES).
      * apply map_eq. intros k. rewrite Ha'3, Hsame, Ha3. by case_decide.
      * by rewrite Ha'3.
    + by rewrite Ha'2.
Qed.

(** After an install whose primary manifest was fetched with responses
    that [addAll] accepts (ok, status other than 206, no Vary star), each
    of its resources is served by Network First when the network is gone,
    and an offline navigation to a page no cache knows gets the cached
    root page. This needs that no other cache answers for these keys
    first. *)
Theorem install_then_offline (env' : Platform) w u request cacheName :
  all_ok env CRITICAL_RESOURCES = true →
  u ∈ CRITICAL_RESOURCES →
  answers_first CACHE_NAME (url_key env u) (storage w) →
  network env' (request_key request) = None →
  storage_match (url_key env u) (storage (install_listener env w).2)
    = network env (url_key env u) ∧
  is_Some (network env (url_key env u)) ∧
  (request_key request = url_key env u →
     (networkFirstStrategy env' request cacheName (install_listener env w).2).1
     = Fulfilled (network env (url_key env u))) ∧
  (u = "/" → self_origin env' = self_origin env →
   mode request = "navigate" →
   storage_match (request_key request) (storage (install_listener env w).2) = None →
     (networkFirstStrategy env' request cacheName (install_listener env w).2).1
     = Fulfilled (network env (url_key env "/"))).
Proof.
  intros Hall Hu Hfirst Hn'.
  assert (url_key env u ∈ url_key env <$> CRITICAL_RESOURCES) as Hk
    by (by apply list_elem_of_fmap_2).
  destruct (all_ok_network env _ _ Hall Hk) as (r & Hr & _).
  assert (storage_match (url_key env u) (storage (install_listener env w).2)
          = network env (url_key env u)) as Hmatch.
  { rewrite install_run. cbn [snd storage].
    set (a := after_addAll env CACHE_NAME CRITICAL_RESOURCES (storage w)).
    destruct (after_addAll_cache env CACHE_NAME CRITICAL_RESOURCES (storage w))
      as (Ha1 & _ & Ha3). fold a in Ha1, Ha3. rewrite Hall in Ha3.
    rewrite storage_match_find, after_addAll_other_key.
    - rewrite (storage_find_of_cache CACHE_NAME _ a (cache_of CACHE_NAME a) r).
      + by rewrite Hr.
      + by apply after_addAll_answers_first.
      + by apply storage_cache_Some_cache_of.
      + rewrite Ha3. by rewrite decide_True.
    - intros (u' & Heq & Hu')%list_elem_of_fmap.
      apply string_app_inj_l in Heq. subst u'.
      revert Hu Hu'. unfold CRITICAL_RESOURCES, STATIC_ASSETS.
      rewrite !elem_of_cons, !elem_of_nil.
      intros [->|[->|[->|[->|[->|[]]]]]] [?|[]]; done. }
  split; [done|]. split; [by rewrite Hr|]. split.
  - intros Hkey. rewrite networkFirst_failed by done. cbn [fst].
    by rewrite Hkey, Hmatch, Hr.
  - intros -> Ho Hnav Hmiss. rewrite networkFirst_failed by done. cbn [fst].
    rewrite Hmiss, Hnav. cbn.
    replace (url_key env' "/") with (url_key env "/")
      by (unfold url_key; by rewrite Ho).
    by rewrite Hmatch.
Qed.

End InstallMore.

(** ** Notification clicks, sync and messages *)

Lemma string_includes_spec (s sub : string) :
  string_includes s sub = true ↔ ∃ a b, s = a +:+ sub +:+ b.
Proof.
  induction s as [|c s IH]; cbn [string_includes];
    rewrite orb_true_iff, prefix_has_prefix.
  - split.
    + intros [[t Ht] | ?]; [|done]. by exists "", t.
    + intros (a & b & Hab). left. destruct a; [by exists b | discriminate].
  - rewrite IH. split.
    + intros [[t Ht] | (a & b & ->)]; [by exists "", t|].
      by exists (String c a), b.
    + intros (a & b & Hab). destruct a as [|c' a].
      * left. by exists b.
      * right. rewrite app_String in Hab. injection Hab as -> ->. by exists a, b.
Qed.

(** Choosing the close action closes the notification and does nothing
    else: no client is focused or navigated and no window is opened. *)
Theorem notificationclick_close origin has_openWindow clientList event :
  click_action event = "close" →
  notificationclick_listener origin has_openWindow clientList event
  = [NotificationClose].
Proof. intros H. unfold notificationclick_listener. by rewrite H. Qed.

Lemma focus_or_open_cases origin has_openWindow target clientList :
  (∃ pre client post,
     clientList = pre ++ client :: post ∧
     Forall (λ x, client_matches origin x = false) pre ∧
     client_matches origin client = true ∧
     focus_or_open origin has_openWindow target clientList
     = ClientFocus (client_id client) ::
       (if has_navigate client
        then [ClientNavigate (client_id client) target] else [])) ∨
  (Forall (λ x, client_matches origin x = false) clientList ∧
   focus_or_open origin has_openWindow target clientList
   = if has_openWindow then [OpenWindow target] else []).
Proof.
  induction clientList as [|c l IH]; cbn [focus_or_open].
  - right. by split.
  - destruct (client_matches origin c) eqn:Hc.
    + left. exists [], c, l. by repeat split.
    + destruct IH as [(pre & c' & post & -> & Hpre & Hc' & Hrun) | [Hall Hrun]].
      * left. exists (c :: pre), c', post. repeat split; [by constructor|done..].
      * right. split; [by constructor | done].
Qed.

(** Any other click closes the notification and then does exactly one
    thing: the first listed client whose URL contains the worker's origin
    is focused (and sent to the target when it can navigate), and no
    window is opened; or, when no client matches, one window is opened
    at the target and no client is touched. *)
Theorem notificationclick_focus_or_open origin has_openWindow clientList event :
  click_action event ≠ "close" →
  (∃ pre client post,
     clientList = pre ++ client :: post ∧
     Forall (λ x, client_matches origin x = false) pre ∧
     client_matches origin client = true ∧
     notificationclick_listener origin has_openWindow clientList event
     = NotificationClose :: WaitUntil :: ClientFocus (client_id client) ::
       (if has_navigate client
        then [ClientNavigate (client_id client) (urlToOpen event)] else [])) ∨
  (Forall (λ x, client_matches origin x = false) clientList ∧
   notificationclick_listener origin has_openWindow clientList event
   = NotificationClose :: WaitUntil ::
     (if has_openWindow then [OpenWindow (urlToOpen event)] else [])).
Proof.
  intros Hne. unfold notificationclick_listener.
  destruct (String.eqb_spec (click_action event) "close") as [|_]; [done|].
  destruct (focus_or_open_cases origin has_openWindow (urlToOpen event) clientList)
    as [(pre & c & post & Hl & Hpre & Hc & ->) | [Hall ->]].
  - left. by exists pre, c, post.
  - by right.
Qed.

(** From push to click: a click on the notification that the push
    listener showed goes to the url of the payload when the payload is an
    object with a truthy url, and to the root path when the payload has
    no such url, does not parse, or is absent. The target is never
    falsy. *)
Theorem push_then_click (env : Platform) (event : PushEvent) (w : World)
    (chosen : string) :
  ∃ shown click,
    effects (push_listener env event w).2 = effects w ++ [shown] ∧
    click_on chosen shown = Some click ∧
    click_action click = chosen ∧
    json_truthy (urlToOpen click) = true ∧
    (∀ d v, data event = Some d → json d = Some v →
       ∀ target, own_properties v !! "url" = Some target →
       json_truthy target = true → urlToOpen click = target) ∧
    (∀ d v, data event = Some d → json d = Some v →
       own_properties v !! "url" = None → urlToOpen click = JStr "/") ∧
    (data event = None ∨ (∃ d, data event = Some d ∧ json d = None) →
       urlToOpen click = JStr "/").
Proof.
  eexists _, _. split; [reflexivity|]. split; [reflexivity|].
  split; [reflexivity|].
  assert (∀ nd, json_truthy (url_or_root nd) = true
                ∧ (if json_truthy (url_or_root nd) then url_or_root nd
                   else JStr "/") = url_or_root nd) as Htruthy.
  { intros nd. unfold url_or_root. destruct (nd !! "url") as [v|]; [|done].
    destruct (json_truthy v) eqn:Hv; [by rewrite Hv | done]. }
  unfold urlToOpen. cbn [click_url n_data data_url].
  destruct (Htruthy (push_notificationData event)) as [Ht ->].
  split; [done|]. unfold push_notificationData, url_or_root, spread.
  split; [|split].
  - intros d v -> -> target Hu Ht'. rewrite lookup_union_l' by (by rewrite Hu).
    by rewrite Hu, Ht'.
  - intros d v -> -> Hu. rewrite lookup_union_r by done. done.
  - intros [-> | (d & -> & ->)]; [done|].
    by rewrite lookup_insert_ne.
Qed.

Lemma statuses_for_app id l1 l2 :
  statuses_for id (l1 ++ l2) = statuses_for id l1 ++ statuses_for id l2.
Proof. apply omap_app. Qed.

Lemma statuses_for_post_to_all id status clients :
  NoDup (client_id <$> clients) →
  statuses_for id (post_to_all status clients)
  = if decide (id ∈ client_id <$> clients) then [status] else [].
Proof.
  induction clients as [|c l IH]; intros Hnd.
  - cbn. by rewrite decide_False by apply not_elem_of_nil.
  - rewrite fmap_cons in Hnd. apply NoDup_cons in Hnd as [Hc Hnd].
    assert (statuses_for id (post_to_all status (c :: l))
            = (if decide (client_id c = id) then [status] else [])
              ++ statuses_for id (post_to_all status l)) as ->.
    { unfold statuses_for, post_to_all. cbn.
      by destruct (decide (client_id c = id)). }
    rewrite IH by done.
    rewrite fmap_cons. destruct (decide (client_id c = id)) as [<-|Hne].
    + rewrite decide_False by done. rewrite decide_True; [done | by left].
    + destruct (decide (id ∈ client_id <$> l)) as [Hin|Hin].
      * rewrite decide_True; [done | by right].
      * rewrite decide_False; [done|]. rewrite not_elem_of_cons. split; [congruence|done].
Qed.

(** The sync relay: on the tag background-sync every client that was
    listed gets exactly two messages, started and then completed, with
    the one-second wait between the two rounds; nobody else gets
    anything; any other tag does nothing at all; and the periodic
    listener, where the platform has it, does the same. *)
Theorem background_sync_relay clients :
  NoDup (client_id <$> clients) →
  (∀ id, statuses_for id (sync_listener clients "background-sync")
         = if decide (id ∈ client_id <$> clients)
           then ["started"; "completed"] else []) ∧
  sync_listener clients "background-sync"
  = WaitUntil :: post_to_all "started" clients ++ [Timeout 1000]
      ++ post_to_all "completed" clients ∧
  (∀ tag, tag ≠ "background-sync" → sync_listener clients tag = []) ∧
  (∀ tag, periodicsync_listener true clients tag = sync_listener clients tag) ∧
  (∀ tag, periodicsync_listener false clients tag = []).
Proof.
  intros Hnd. split; [|split; [done|split; [|done]]].
  - intros id. cbn [sync_listener String.eqb Ascii.eqb Bool.eqb].
    unfold doBackgroundSync.
    change (statuses_for id (WaitUntil :: ?l)) with (statuses_for id l).
    rewrite !statuses_for_app, !statuses_for_post_to_all by done.
    by case_decide.
  - intros tag Hne. unfold sync_listener.
    by destruct (String.eqb_spec tag "background-sync").
Qed.

(** The version query: a message whose type is GET_VERSION is answered
    on its first port, with the name of the primary cache and nothing
    else; sent without a port it makes the listener throw. *)
Theorem message_get_version event :
  message_type event = Some (JStr "GET_VERSION") →
  message_listener event
  = match message_ports event with
    | port :: _ => Returned [PortPostMessage port "amino-gym-v2"]
    | [] => Thrown TypeError
    end.
Proof. intros H. unfold message_listener. by rewrite H. Qed.

(** Everything else is handled without throwing: SKIP_WAITING calls
    [skipWaiting] and sends nothing; a message that is not an object, or
    an object with no type or another type, is ignored. The listener
    throws only for a GET_VERSION without a port. *)
Theorem message_listener_other event :
  (message_type event = Some (JStr "SKIP_WAITING") →
     message_listener event = Returned [CallSkipWaiting]) ∧
  ((∀ fields, message_data event ≠ Some (JObj fields)) →
     message_listener event = Returned []) ∧
  (message_type event ≠ Some (JStr "SKIP_WAITING") →
   message_type event ≠ Some (JStr "GET_VERSION") →
     message_listener event = Returned []) ∧
  (∀ e, message_listener event = Thrown e →
     message_type event = Some (JStr "GET_VERSION") ∧ message_ports event = []).
Proof.
  assert (∀ s, is_string (message_type event) s = true
               ↔ message_type event = Some (JStr s)) as Hstr.
  { intros s. unfold is_string. destruct (message_type event) as [[]|]; try done.
    rewrite String.eqb_eq. split; congruence. }
  assert (message_type event ≠ Some (JStr "SKIP_WAITING") →
          message_type event ≠ Some (JStr "GET_VERSION") →
          message_listener event = Returned []) as Hother.
  { intros H1 H2. unfold message_listener.
    destruct (is_string (message_type event) "GET_VERSION") eqn:Hg.
    { by apply Hstr in Hg. }
    destruct (is_string (message_type event) "SKIP_WAITING") eqn:Hs; [|done].
    by apply Hstr in Hs. }
  split; [|split; [|split]].
  - intros H. unfold message_listener. by rewrite H.
  - intros Hno. apply Hother; unfold message_type;
      destruct (message_data event) as [[]|]; try done; by edestruct Hno.
  - done.
  - intros e. unfold message_listener.
    destruct (is_string (message_type event) "GET_VERSION") eqn:Hg; [|done].
    apply Hstr in Hg. by destruct (message_ports event).
Qed.

(** ** The page's cache clean-up *)

Lemma Promise_all_delete_list (names : list string) (w : World) :
  ∃ l,
    Promise_all (map (λ name, caches_delete name) names) w
    = (Fulfilled l,
       with_storage (λ st, foldl (λ acc n, storage_delete n acc) st names) w).
Proof.
  revert w. induction names as [|n names IH]; intros w.
  - exists []. by destruct w.
  - cbn [map Promise_all].
    destruct (IH (with_storage (storage_delete n) w)) as [l Hl].
    exists (bool_decide (is_Some (storage_cache n (storage w))) :: l).
    unfold caches_delete at 1. rewrite Hl. by destruct w.
Qed.

Lemma delete_list_filter (names : list string) (st : list (string * Cache)) :
  foldl (λ acc n, storage_delete n acc) st names
  = filter (λ p, p.1 ∉ names) st.
Proof.
  revert st. induction names as [|n names IH]; intros st; cbn [foldl].
  - symmetry. apply filter_all. intros p _. apply not_elem_of_nil.
  - rewrite IH. unfold storage_delete, CacheStorage. rewrite list_filter_filter.
    apply list_filter_iff. intros p. rewrite not_elem_of_cons. tauto.
Qed.

Lemma clearOldCaches_run (w : World) :
  clearOldCaches true w
  = (Fulfilled tt,
     with_storage
       (λ st : list (string * Cache),
          filter (λ p, string_includes p.1 "v1" = true) st) w).
Proof.
  unfold clearOldCaches.
  destruct (Promise_all_delete_list
              (filter (λ name, string_includes name "v1" = false)
                      (storage_keys (storage w))) w) as [l Hl].
  unfold mbind at 1, Async_bind at 1. unfold caches_keys at 1.
  unfold mbind, Async_bind. rewrite Hl. unfold mret, Async_ret.
  f_equal. unfold with_storage. f_equal.
  rewrite delete_list_filter. apply filter_ext_elem. intros p Hp.
  rewrite list_elem_of_filter.
  assert (p.1 ∈ storage_keys (storage w)) by (by apply list_elem_of_fmap_2).
  destruct (string_includes p.1 "v1").
  - split; [done | by intros _ [? _]].
  - split; [intros Hx; exfalso; by apply Hx | done].
Qed.

(** The page's clean-up keeps exactly the caches whose name contains v1,
    with their contents, and deletes all the others: the four caches of
    the worker do not survive it, so whatever the worker stored no longer
    answers. Without the Cache API it does nothing. *)
Theorem clearOldCaches_keeps_only_v1 (w : World) :
  (clearOldCaches true w).1 = Fulfilled tt ∧
  storage (clearOldCaches true w).2
    = filter (λ p, string_includes p.1 "v1" = true) (storage w) ∧
  (∀ n, storage_cache n (storage (clearOldCaches true w).2)
        = if decide (string_includes n "v1" = true)
          then storage_cache n (storage w) else None) ∧
  (∀ n, n ∈ current_caches →
        storage_cache n (storage (clearOldCaches true w).2) = None) ∧
  clearOldCaches false w = (Fulfilled tt, w).
Proof.
  rewrite clearOldCaches_run. cbn [fst snd with_storage storage].
  split; [done|]. split; [done|].
  assert (∀ n, storage_cache n
                 (filter (λ p : string * Cache, string_includes p.1 "v1" = true)
                    (storage w))
               = if decide (string_includes n "v1" = true)
                 then storage_cache n (storage w) else None) as Hcache.
  { intros n.
    exact (storage_cache_filter (λ n, string_includes n "v1" = true) n (storage w)). }
  split; [done|]. split; [|done].
  intros n Hn. rewrite Hcache. rewrite decide_False; [done|].
  revert Hn. unfold current_caches. rewrite !elem_of_cons, elem_of_nil.
  intros [->|[->|[->|[->|[]]]]]; by vm_compute.
Qed.

(** The clean-up after an activation leaves no cache at all: activation
    kept only the four current names, and none of them contains v1. *)
Theorem activate_then_clearOldCaches (w : World) :
  storage (clearOldCaches true (activate_listener w).2).2 = [].
Proof.
  rewrite clearOldCaches_run, activate_listener_run.
  cbn [snd with_storage storage]. unfold CacheStorage.
  rewrite list_filter_filter.
  induction (storage w) as [|[n c] st IH]; [done|].
  rewrite filter_cons_False; [done|]. cbn [fst].
  intros [Hv Hn]. revert Hn Hv. unfold current_caches.
  rewrite !elem_of_cons, elem_of_nil.
  intros [->|[->|[->|[->|[]]]]]; by vm_compute.
Qed.

(** ** memoize *)

Section MemoizeFacts.

Context {Args Res : Type}.
Variable stringify : Args → option string.
Variable fn : Args → option Res.

Lemma memoized_keeps a s k v :
  memo_cache s !! k = Some v →
  memo_cache (memoized stringify fn a s).2 !! k = Some v.
Proof.
  intros Hk. unfold memoized.
  destruct (stringify a) as [key|]; [|done].
  destruct (memo_cache s !! key) eqn:Hkey; [done|].
  destruct (fn a); [|done]. cbn.
  rewrite lookup_insert_ne; [done | congruence].
Qed.

Lemma memo_after_keeps l s k v :
  memo_cache s !! k = Some v →
  memo_cache (memo_after stringify fn l s) !! k = Some v.
Proof.
  revert s. induction l as [|a l IH]; intros s Hk; [done|].
  apply IH. by apply memoized_keeps.
Qed.

(** Arguments with the same JSON text share one result, the first that
    was computed: once a call has returned, every later call whose
    arguments stringify to the same key returns that value, without
    calling the function and without changing anything. *)
Theorem memoize_reuses_first_result s a b k v l :
  stringify a = Some k → stringify b = Some k →
  (memoized stringify fn a s).1 = Returned v →
  memoized stringify fn b (memo_after stringify fn l (memoized stringify fn a s).2)
  = (Returned v, memo_after stringify fn l (memoized stringify fn a s).2).
Proof.
  intros Ha Hb Hv.
  assert (memo_cache (memoized stringify fn a s).2 !! k = Some v) as Hk.
  { revert Hv. unfold memoized. rewrite Ha.
    destruct (memo_cache s !! k) eqn:Hc; cbn; [by intros [= ->]|].
    destruct (fn a); cbn; [|done]. intros [= ->]. apply lookup_insert_eq. }
  apply (memo_after_keeps l) in Hk.
  unfold memoized at 1. by rewrite Hb, Hk.
Qed.

Lemma computed_keys_snoc cache calls a :
  computed_keys stringify fn {| memo_cache := cache; memo_calls := calls ++ [a] |}
  = computed_keys stringify fn {| memo_cache := cache; memo_calls := calls |}
    ++ match fn a, stringify a with
       | Some _, Some k => [k]
       | _, _ => []
       end.
Proof.
  unfold computed_keys. cbn [memo_calls]. rewrite omap_app. f_equal. cbn.
  destruct (fn a); [by destruct (stringify a) | done].
Qed.

Lemma computed_keys_cache c1 c2 calls :
  computed_keys stringify fn {| memo_cache := c1; memo_calls := calls |}
  = computed_keys stringify fn (Res := Res) {| memo_cache := c2; memo_calls := calls |}.
Proof. done. Qed.

Lemma memoized_inv a s :
  memo_inv stringify fn s → memo_inv stringify fn (memoized stringify fn a s).2.
Proof.
  intros [Hnd Hdom]. unfold memoized.
  destruct (stringify a) as [key|] eqn:Ha; [|done].
  destruct (memo_cache s !! key) eqn:Hkey; [done|].
  destruct s as [cache calls]. cbn [memo_cache memo_calls] in *.
  unfold memo_inv.
  destruct (fn a) as [r|] eqn:Hf; cbn [snd]; rewrite computed_keys_snoc, Hf.
  - rewrite Ha. rewrite (computed_keys_cache _ cache). cbn [memo_cache]. split.
    + apply NoDup_app. split; [done|]. split; [|apply NoDup_singleton].
      intros k Hk ->%list_elem_of_singleton. apply Hdom in Hk.
      rewrite Hkey in Hk. by destruct Hk.
    + intros k. rewrite elem_of_app, list_elem_of_singleton.
      destruct (decide (k = key)) as [->|Hne].
      * rewrite lookup_insert_eq. split; [by eexists | by right].
      * rewrite lookup_insert_ne by done. rewrite <- Hdom. tauto.
  - rewrite app_nil_r. by split.
Qed.

Lemma memo_after_inv l s :
  memo_inv stringify fn s → memo_inv stringify fn (memo_after stringify fn l s).
Proof.
  revert s. induction l as [|a l IH]; intros s Hs; [done|].
  apply IH. by apply memoized_inv.
Qed.

(** Whatever calls are made, the wrapped function returns at most once
    per key, and the cache holds exactly the keys for which it did. *)
Theorem memoize_computes_once l :
  NoDup (computed_keys stringify fn (memo_after stringify fn l memo_empty)) ∧
  ∀ k, k ∈ computed_keys stringify fn (memo_after stringify fn l memo_empty)
       ↔ is_Some (memo_cache (memo_after stringify fn l memo_empty) !! k).
Proof.
  apply (memo_after_inv l memo_empty). split; [constructor|].
  intros k. cbn. rewrite lookup_empty. split; [by intros ?%elem_of_nil | by intros [? ?]].
Qed.

Lemma memoized_sound a s :
  memo_sound stringify fn s → memo_sound stringify fn (memoized stringify fn a s).2.
Proof.
  intros Hs. unfold memoized.
  destruct (stringify a) as [key|] eqn:Ha; [|done].
  destruct (memo_cache s !! key) eqn:Hkey; [done|].
  destruct (fn a) as [r|] eqn:Hf; [|done].
  intros k v. cbn. destruct (decide (k = key)) as [->|Hne].
  - rewrite lookup_insert_eq. intros [= <-]. by exists a.
  - rewrite lookup_insert_ne by done. apply Hs.
Qed.

Lemma memo_after_sound l s :
  memo_sound stringify fn s → memo_sound stringify fn (memo_after stringify fn l s).
Proof.
  revert s. induction l as [|a l IH]; intros s Hs; [done|].
  apply IH. by apply memoized_sound.
Qed.

(** When arguments with the same JSON text give the same result, the
    memoized function is the function: after any calls, a call returns
    what the function returns for its arguments, and throws when
    stringifying or the function does. *)
Theorem memoize_agrees_with_fn l a :
  (∀ x y k, stringify x = Some k → stringify y = Some k → fn x = fn y) →
  (memoized stringify fn a (memo_after stringify fn l memo_empty)).1
  = match stringify a with
    | None => Thrown TypeError
    | Some _ =>
        match fn a with
        | Some v => Returned v
        | None => Thrown TypeError
        end
    end.
Proof.
  intros Hkey.
  assert (memo_sound stringify fn (memo_after stringify fn l memo_empty)) as Hs.
  { apply memo_after_sound. intros k v. cbn. by rewrite lookup_empty. }
  unfold memoized. destruct (stringify a) as [key|] eqn:Ha; [|done].
  destruct (memo_cache _ !! key) as [v|] eqn:Hc.
  - destruct (Hs _ _ Hc) as (x & Hx & Hv).
    by rewrite (Hkey a x key Ha Hx), Hv.
  - by destruct (fn a).
Qed.

End MemoizeFacts.

(** ** debounce *)



Section DebounceFacts.

Context {Args : Type}.
Variable wait : Z.

Lemma clearTimeout_single (current : option nat) (timers : gmap nat (Z * Args)) :
  (∀ id x, timers !! id = Some x → current = Some id) →
  clearTimeout current timers = ∅.
Proof.
  intros Hsingle. apply map_eq. intros i. rewrite lookup_empty.
  unfold clearTimeout. destruct current as [j|].
  - destruct (decide (j = i)) as [->|Hne]; [apply lookup_delete_eq|].
    rewrite lookup_delete_ne by done.
    destruct (timers !! i) as [x|] eqn:Hp; [|done].
    pose proof (Hsingle i x Hp). congruence.
  - destruct (timers !! i) as [x|] eqn:Hp; [|done].
    pose proof (Hsingle i x Hp). congruence.
Qed.

(** Only the timer that [timeout] names can be set. *)
Lemma debounce_single (events : list (@TimerEvent Args)) :
  ∀ id x, pending (debounce_run wait events debounce_init) !! id = Some x →
          timeout (debounce_run wait events debounce_init) = Some id.
Proof.
  unfold debounce_run.
  induction events as [|e events IH] using rev_ind; [done|].
  rewrite foldl_app. cbn [foldl].
  set (s := foldl (debounce_step wait) debounce_init events) in *.
  intros id x. destruct e as [t args|t i]; cbn [debounce_step].
  - unfold debounce_call. cbn [pending timeout].
    rewrite (clearTimeout_single _ _ IH), insert_empty.
    intros [<- _]%lookup_singleton_Some. done.
  - unfold debounce_fire. destruct (pending s !! i) as [[due a]|] eqn:Hi; [|apply IH].
    destruct (due <=? t); [|apply IH]. cbn [pending timeout].
    intros [_ Hp]%lookup_delete_Some. exact (IH _ _ Hp).
Qed.

Lemma debounce_after_call (events : list (@TimerEvent Args)) (t : Z) (args : Args) :
  ∃ id,
    timeout (debounce_run wait (events ++ [Call t args]) debounce_init) = Some id ∧
    pending (debounce_run wait (events ++ [Call t args]) debounce_init)
      = {[ id := (t + timer_delay wait, args) ]} ∧
    invoked (debounce_run wait (events ++ [Call t args]) debounce_init)
      = invoked (debounce_run wait events debounce_init).
Proof.
  unfold debounce_run. rewrite foldl_app. cbn [foldl debounce_step].
  pose proof (debounce_single events) as Hsingle. unfold debounce_run in Hsingle.
  set (s := foldl (debounce_step wait) debounce_init events) in *.
  exists (next_timer s). unfold debounce_call. cbn [timeout pending invoked].
  split; [done|]. split; [|done].
  by rewrite (clearTimeout_single _ _ Hsingle), insert_empty.
Qed.

Lemma debounce_fires_nothing_set (fires : list (@TimerEvent Args))
    (s : @Debounced Args) :
  Forall is_fire fires → pending s = ∅ →
  pending (debounce_run wait fires s) = ∅ ∧
  invoked (debounce_run wait fires s) = invoked s.
Proof.
  revert s. induction fires as [|e fires IH]; intros s Hf Hp; [done|].
  apply Forall_cons in Hf as [He Hf]. destruct e as [|t i]; [done|].
  unfold debounce_run. cbn [foldl debounce_step]. unfold debounce_fire.
  rewrite Hp, lookup_empty. by apply IH.
Qed.

Lemma debounce_fires_one_set (fires : list (@TimerEvent Args))
    (s : @Debounced Args) id due args :
  Forall is_fire fires → pending s = {[ id := (due, args) ]} →
  invoked (debounce_run wait fires s) = invoked s ∨
  ∃ t', due ≤ t' ∧ invoked (debounce_run wait fires s) = invoked s ++ [(t', args)].
Proof.
  revert s. induction fires as [|e fires IH]; intros s Hf Hp; [by left|].
  apply Forall_cons in Hf as [He Hf]. destruct e as [|t i]; [done|].
  unfold debounce_run. cbn [foldl debounce_step]. unfold debounce_fire.
  rewrite Hp. destruct (decide (i = id)) as [->|Hne].
  - rewrite lookup_singleton_eq. destruct (Z.leb_spec due t) as [Hdue|Hdue].
    + right. exists t. split; [done|].
      apply (debounce_fires_nothing_set fires); [done|]. cbn [pending].
      apply delete_singleton_eq.
    + by apply IH.
  - rewrite lookup_singleton_ne by done. by apply IH.
Qed.


(** After the last call of a burst, however the timers run, the function
    is invoked at most once more: with the arguments of that last call
    and not before the delay [setTimeout] makes of [wait] has passed
    since it. What earlier calls had set is never invoked. *)
Theorem debounce_burst (events : list (@TimerEvent Args)) (t : Z) (args : Args)
    (fires : list (@TimerEvent Args)) :
  Forall is_fire fires →
  invoked (debounce_run wait (events ++ [Call t args] ++ fires) debounce_init)
    = invoked (debounce_run wait events debounce_init) ∨
  ∃ t', t + timer_delay wait ≤ t' ∧
    invoked (debounce_run wait (events ++ [Call t args] ++ fires) debounce_init)
    = invoked (debounce_run wait events debounce_init) ++ [(t', args)].
Proof.
  intros Hf. rewrite app_assoc.
  destruct (debounce_after_call events t args) as (id & _ & Hp & Hi).
  unfold debounce_run in *. rewrite foldl_app. rewrite <- Hi.
  by apply (debounce_fires_one_set fires _ id).
Qed.

End DebounceFacts.

(** ** throttle *)

Section ThrottleFacts.

Context {Args : Type}.
Variable limit : Z.
Variable func : Z → Args → Completion unit.







End ThrottleFacts.

(** ** Push payloads that are not objects *)

Lemma pretty_N_go_head (c : Ascii.ascii) :
  (∀ d, pretty_N_char d ≠ c) →
  ∀ x s k, (∀ k', s ≠ String c k') → pretty_N_go x s ≠ String c k.
Proof.
  intros Hc x. induction (N.lt_wf_0 x) as [x _ IH]. intros s k Hs.
  assert (x = 0 ∨ 0 < x)%N as [->|Hx] by lia.
  - rewrite pretty_N_go_0. apply Hs.
  - rewrite pretty_N_go_step by done. apply IH.
    + by apply N.div_lt.
    + intros k' [= Hd _]. by apply Hc in Hd.
Qed.

Lemma pretty_nat_head (c : Ascii.ascii) (i : nat) (k : string) :
  (∀ d, pretty_N_char d ≠ c) → pretty i ≠ String c k.
Proof.
  intros Hc. unfold pretty, pretty_nat, pretty, pretty_N.
  case_decide as Hi.
  - intros [= Hd _]. by apply (Hc 0%N).
  - by apply pretty_N_go_head.
Qed.

Lemma indexed_lookup_letter (l : list Json) (c : Ascii.ascii) (k : string) :
  (∀ d, pretty_N_char d ≠ c) →
  (list_to_map (indexed l) : gmap string Json) !! String c k = None.
Proof.
  intros Hc. apply not_elem_of_list_to_map_1.
  intros (p & Hp & Hin)%list_elem_of_fmap.
  unfold indexed in Hin. apply elem_of_lookup_imap in Hin as (i & v & -> & _).
  cbn in Hp. by apply (pretty_nat_head c i k Hc).
Qed.

Ltac not_a_digit :=
  let d := fresh "d" in
  intros d; unfold pretty_N_char; repeat case_match; discriminate.

(** The properties of a parsed payload that is not an object are at most
    its indices, never one of the notification's fields. *)
Lemma non_object_has_no_field (v : Json) (c : Ascii.ascii) (k : string) :
  (∀ fields, v ≠ JObj fields) →
  (∀ d, pretty_N_char d ≠ c) →
  own_properties v !! String c k = None.
Proof.
  intros Hno Hc. destruct v as [| | | |items|fields]; cbn [own_properties];
    try apply lookup_empty.
  - by apply indexed_lookup_letter.
  - by apply indexed_lookup_letter.
  - by destruct (Hno fields).
Qed.

(** A payload that is valid JSON but not an object (null, a boolean, a
    number, a bare string, an array) changes nothing of what is shown:
    title, body, icon and badge are the defaults and the target is the
    root path. In particular a payload that is a JSON string is not used
    as the body. *)
Theorem push_non_object_payload (env : Platform) (event : PushEvent) (w : World)
    (d : PushMessageData) (v : Json) :
  data event = Some d → json d = Some v →
  (∀ fields, v ≠ JObj fields) →
  ∃ options,
    push_listener env event w
    = (Fulfilled tt,
       {| storage := storage w; spawned := spawned w;
          effects := effects w ++
            [ShowNotification (Some (JStr "Amino Gym")) options] |}) ∧
    n_body options = default_notificationData !! "body" ∧
    n_icon options = Some (JStr "/yacin-gym-logo.png") ∧
    n_badge options = Some (JStr "/yacin-gym-logo.png") ∧
    data_url (n_data options) = JStr "/".
Proof.
  intros Hd Hj Hno.
  assert (∀ key c k, key = String c k → (∀ x, pretty_N_char x ≠ c) →
            push_notificationData event !! key
            = default_notificationData !! key) as Hsame.
  { intros key c k -> Hc. unfold push_notificationData, spread. rewrite Hd, Hj.
    rewrite lookup_union_r; [done|]. by apply non_object_has_no_field. }
  eexists. unfold push_listener, emit. cbn [n_body n_icon n_badge n_data data_url].
  unfold url_or_root.
  rewrite (Hsame "title" _ _ eq_refl), (Hsame "body" _ _ eq_refl),
          (Hsame "icon" _ _ eq_refl), (Hsame "badge" _ _ eq_refl),
          (Hsame "url" _ _ eq_refl) by not_a_digit.
  repeat split.
Qed.

(** ** Chunk file names *)

Lemma includes_slash_cons c s :
  string_includes (String c s) "/" = is_slash c || string_includes s "/".
Proof.
  cbn [string_includes String.prefix]. unfold is_slash.
  destruct (Ascii.ascii_dec _ c) as [<-|Hne]; [by destruct s|].
  destruct (String.eqb_spec (String c "") "/") as [[= ->]|]; done.
Qed.

Lemma split_slash_nonempty s : split_slash s ≠ [].
Proof.
  destruct s as [|c s]; cbn [split_slash]; [done|].
  destruct (is_slash c); [done|]. by destruct (split_slash s).
Qed.

Lemma split_slash_last_no_slash s :
  string_includes (default "" (last (split_slash s))) "/" = false.
Proof.
  induction s as [|c s IH]; [done|]. cbn [split_slash].
  destruct (is_slash c) eqn:Hc.
  - pose proof (split_slash_nonempty s).
    destruct (split_slash s) as [|h t]; [done|]. exact IH.
  - destruct (split_slash s) as [|h [|h' t]] eqn:Hs.
    + by destruct (split_slash_nonempty s).
    + change (string_includes h "/" = false) in IH.
      change (string_includes (String c h) "/" = false).
      by rewrite includes_slash_cons, Hc, IH.
    + exact IH.
Qed.

Lemma string_drop_no_slash n s :
  string_includes s "/" = false → string_includes (string_drop n s) "/" = false.
Proof.
  revert s. induction n as [|n IH]; intros s Hs; [done|].
  destruct s as [|c s]; [done|]. cbn [string_drop].
  rewrite includes_slash_cons in Hs. apply orb_false_iff in Hs as [_ Hs]. auto.
Qed.

Lemma replace_first_no_slash pat s :
  string_includes s "/" = false →
  string_includes (replace_first pat "" s) "/" = false.
Proof.
  induction s as [|c s IH]; intros Hs; cbn [replace_first].
  - destruct (String.prefix pat ""); [|done]. by destruct (String.length pat).
  - destruct (String.prefix pat (String c s)).
    + rewrite app_empty. by apply string_drop_no_slash.
    + rewrite includes_slash_cons in *. apply orb_false_iff in Hs as [-> Hs].
      by apply IH.
Qed.

(** The name put between js/ and -[hash].js never contains a slash, so
    every chunk lands directly in the js folder; without a facade module
    the name is chunk. *)
Theorem chunkFileNames_flat (facadeModuleId : option string) :
  ∃ name,
    chunkFileNames facadeModuleId = "js/" +:+ name +:+ "-[hash].js" ∧
    string_includes name "/" = false ∧
    (facadeModuleId = None ∨ facadeModuleId = Some "" → name = "chunk").
Proof.
  unfold chunkFileNames. eexists. split; [reflexivity|]. split.
  - destruct facadeModuleId as [id|]; [|done].
    destruct (String.eqb id ""); [done|].
    apply replace_first_no_slash, replace_first_no_slash, split_slash_last_no_slash.
  - by intros [-> | ->].
Qed.

Lemma split_slash_no_slash s :
  string_includes s "/" = false → split_slash s = [s].
Proof.
  induction s as [|c s IH]; [done|]. rewrite includes_slash_cons.
  intros [Hc Hs]%orb_false_iff. cbn [split_slash]. by rewrite Hc, IH.
Qed.

Lemma split_slash_last_app dir seg :
  ∃ h t, split_slash (dir +:+ "/" +:+ seg) = h :: t ∧ t ≠ [] ∧
         last t = last (split_slash seg).
Proof.
  induction dir as [|c dir (h & t & Hsplit & Ht & Hlast)].
  - exists "", (split_slash seg). split; [done|]. split; [|done].
    apply split_slash_nonempty.
  - rewrite app_String. cbn [split_slash]. rewrite Hsplit.
    destruct (is_slash c).
    + exists "", (h :: t). split; [done|]. split; [done|].
      destruct t; [done|]. exact Hlast.
    + by exists (String c h), t.
Qed.

Lemma replace_first_absent pat rep s :
  string_includes s pat = false → replace_first pat rep s = s.
Proof.
  induction s as [|c s IH]; cbn [string_includes replace_first].
  - rewrite orb_false_r. by intros ->.
  - intros [-> Hs]%orb_false_iff. by rewrite IH.
Qed.

Lemma prefix_ts_grown (s : string) :
  s ≠ "" → String.prefix ".ts" s = false →
  String.prefix ".ts" (s +:+ ".ts") = false ∧
  String.prefix ".tsx" (s +:+ ".ts") = false ∧
  String.prefix ".tsx" (s +:+ ".tsx") = false.
Proof.
  intros Hne Hs.
  destruct s as [|c [|c1 [|c2 s]]]; [done|..];
    rewrite ?app_String, ?app_empty; cbn [String.prefix] in *;
    repeat (case_match; try done).
  by destruct s.
Qed.

Lemma includes_tsx_in_ts (base : string) :
  string_includes base ".ts" = false →
  string_includes (base +:+ ".ts") ".tsx" = false.
Proof.
  induction base as [|c base IH]; [done|].
  cbn [string_includes]. intros [Hp Hb]%orb_false_iff.
  rewrite app_String. cbn [string_includes]. rewrite (IH Hb), orb_false_r.
  rewrite <- app_String. by apply prefix_ts_grown.
Qed.

Lemma replace_tsx_at_end (base : string) :
  string_includes base ".ts" = false →
  replace_first ".tsx" "" (base +:+ ".tsx") = base.
Proof.
  induction base as [|c base IH]; [done|].
  cbn [string_includes]. intros [Hp Hb]%orb_false_iff.
  destruct (prefix_ts_grown (String c base)) as (_ & _ & Hx); [done..|].
  rewrite app_String in *. cbn [replace_first]. by rewrite Hx, IH.
Qed.

Lemma replace_ts_at_end (base : string) :
  string_includes base ".ts" = false →
  replace_first ".ts" "" (base +:+ ".ts") = base.
Proof.
  induction base as [|c base IH]; [done|].
  cbn [string_includes]. intros [Hp Hb]%orb_false_iff.
  destruct (prefix_ts_grown (String c base)) as (Hx & _ & _); [done..|].
  rewrite app_String in *. cbn [replace_first]. by rewrite Hx, IH.
Qed.

(** A module file [dir/base.tsx] or [dir/base.ts], where [base] has no
    slash and does not contain [.ts], gives the chunk name
    [js/base-[hash].js]: the directories and the extension are gone. *)
Theorem chunkFileNames_module (dir base : string) :
  string_includes base "/" = false →
  string_includes base ".ts" = false →
  chunkFileNames (Some (dir +:+ "/" +:+ base +:+ ".tsx"))
    = "js/" +:+ base +:+ "-[hash].js" ∧
  chunkFileNames (Some (dir +:+ "/" +:+ base +:+ ".ts"))
    = "js/" +:+ base +:+ "-[hash].js".
Proof.
  intros Hslash Hts.
  assert (∀ ext, string_includes ext "/" = false →
            String.eqb (dir +:+ "/" +:+ base +:+ ext) "" = false ∧
            default "" (last (split_slash (dir +:+ "/" +:+ base +:+ ext)))
            = base +:+ ext) as Hseg.
  { intros ext Hext. split.
    - by destruct dir.
    - destruct (split_slash_last_app dir (base +:+ ext)) as (h & t & -> & Ht & Hl).
      destruct t as [|h' t]; [done|]. cbn [last] in *. rewrite Hl.
      rewrite split_slash_no_slash; [done|].
      clear -Hslash Hext. induction base as [|c base IH]; [done|].
      rewrite app_String, includes_slash_cons in *.
      apply orb_false_iff in Hslash as [-> Hslash]. by apply IH. }
  unfold chunkFileNames. split.
  - destruct (Hseg ".tsx" eq_refl) as [-> ->].
    by rewrite replace_tsx_at_end, replace_first_absent.
  - destruct (Hseg ".ts" eq_refl) as [-> ->].
    rewrite (replace_first_absent ".tsx") by (by apply includes_tsx_in_ts).
    by rewrite replace_ts_at_end.
Qed.

(** ** The properties above at concrete inputs *)

Lemma networkFirst_failure_propagates_example :
  networkFirstStrategy offline members_request DYNAMIC_CACHE (world_of [])
  = (Rejected NetworkError, world_of []).
Proof.
  apply (networkFirst_failure_propagates offline members_request DYNAMIC_CACHE
           (world_of [])); [reflexivity | reflexivity | discriminate].
Defined.

Lemma networkFirst_prefers_network_example :
  (networkFirstStrategy (online (plain 500 "error")) page_request CACHE_NAME
     (world_of visited_storage)).1
  = Fulfilled (Some (plain 500 "error")).
Proof.
  apply (networkFirst_prefers_network (online (plain 500 "error")) page_request
           CACHE_NAME (world_of visited_storage) (plain 500 "error")).
  reflexivity.
Defined.



Lemma cacheFirst_miss_without_ok_example :
  cacheFirstStrategy offline logo_request IMAGE_CACHE (world_of [])
  = (Rejected NetworkError, world_of []).
Proof.
  apply (cacheFirst_miss_without_ok offline logo_request IMAGE_CACHE (world_of []));
    reflexivity.
Defined.

Lemma cacheFirst_unparseable_date_example :
  cacheFirstStrategy offline logo_request IMAGE_CACHE
    (world_of (dated_storage "yesterday"))
  = (Fulfilled (dated_logo "yesterday"), world_of (dated_storage "yesterday")).
Proof.
  apply (cacheFirst_unparseable_date offline logo_request IMAGE_CACHE
           (world_of (dated_storage "yesterday")) (dated_logo "yesterday")
           "yesterday"); [reflexivity | reflexivity | discriminate | reflexivity].
Defined.

Lemma cacheFirst_fresh_entry_example :
  cacheFirstStrategy (dating 1699999000000) logo_request IMAGE_CACHE
    (world_of (dated_storage "Tue, 14 Nov 2023 21:56:40 GMT"))
  = (Fulfilled (dated_logo "Tue, 14 Nov 2023 21:56:40 GMT"),
     world_of (dated_storage "Tue, 14 Nov 2023 21:56:40 GMT")).
Proof.
  apply (cacheFirst_fresh_entry (dating 1699999000000) logo_request IMAGE_CACHE
           (world_of (dated_storage "Tue, 14 Nov 2023 21:56:40 GMT"))
           (dated_logo "Tue, 14 Nov 2023 21:56:40 GMT")
           "Tue, 14 Nov 2023 21:56:40 GMT" 1699999000000);
    [reflexivity | reflexivity | discriminate | reflexivity | cbn; lia].
Defined.

Lemma activate_keeps_current_contents_example :
  storage_find (request_key photo_request)
    (storage (activate_listener (world_of photo_storage)).2)
  = Some (IMAGE_CACHE, plain 200 "photo").
Proof.
  apply (activate_keeps_current_contents (world_of photo_storage)).
  - reflexivity.
  - unfold current_caches. repeat constructor.
Defined.

Lemma fetch_listener_touches_own_cache_example :
  storage_cache CACHE_NAME
    (settle (online (plain 200 "members"))
       (run_strategy (online (plain 200 "members")) NetworkFirst members_request
          DYNAMIC_CACHE (world_of visited_storage)).2)
  = storage_cache CACHE_NAME visited_storage.
Proof.
  apply (fetch_listener_touches_own_cache (online (plain 200 "members"))
           members_request API
           (run_strategy (online (plain 200 "members")) NetworkFirst
              members_request DYNAMIC_CACHE)
           (world_of visited_storage));
    [reflexivity | reflexivity | reflexivity | discriminate].
Defined.

Lemma install_then_offline_example :
  (networkFirstStrategy offline login_request CACHE_NAME
     (install_listener serving_manifest (world_of [])).2).1
  = Fulfilled (network serving_manifest (url_key serving_manifest "/login")).
Proof.
  apply (install_then_offline serving_manifest offline (world_of []) "/login"
           login_request CACHE_NAME);
    [reflexivity | unfold CRITICAL_RESOURCES; repeat constructor
    | by left | reflexivity | reflexivity].
Defined.

Lemma notificationclick_close_example :
  notificationclick_listener example_origin true two_clients
    {| click_action := "close"; click_url := None |}
  = [NotificationClose].
Proof.
  apply (notificationclick_close example_origin true two_clients
           {| click_action := "close"; click_url := None |}).
  reflexivity.
Defined.

Lemma notificationclick_focus_or_open_example :
  (∃ pre client post,
     two_clients = pre ++ client :: post ∧
     Forall (λ x, client_matches example_origin x = false) pre ∧
     client_matches example_origin client = true ∧
     notificationclick_listener example_origin true two_clients open_click
     = NotificationClose :: WaitUntil :: ClientFocus (client_id client) ::
       (if has_navigate client
        then [ClientNavigate (client_id client) (urlToOpen open_click)] else [])) ∨
  (Forall (λ x, client_matches example_origin x = false) two_clients ∧
   notificationclick_listener example_origin true two_clients open_click
   = NotificationClose :: WaitUntil ::
     (if true then [OpenWindow (urlToOpen open_click)] else [])).
Proof.
  apply (notificationclick_focus_or_open example_origin true two_clients open_click).
  discriminate.
Defined.

Lemma push_then_click_example :
  ∃ shown click,
    effects (push_listener offline url_push (world_of [])).2 = [shown] ∧
    click_on "open" shown = Some click ∧
    urlToOpen click = JStr "/home?tab=payments".
Proof.
  destruct (push_then_click offline url_push (world_of []) "open")
    as (shown & click & Heff & Hclick & _ & _ & Hurl & _).
  exists shown, click. split; [exact Heff|]. split; [exact Hclick|].
  apply (Hurl _ _ eq_refl eq_refl); reflexivity.
Defined.

Lemma background_sync_relay_example :
  statuses_for 2 (sync_listener two_clients "background-sync")
  = ["started"; "completed"].
Proof.
  apply (proj1 (background_sync_relay two_clients
                  ltac:(apply (bool_decide_unpack _); by vm_compute)) 2%nat).
Defined.

Lemma message_get_version_example :
  message_listener version_query = Returned [PortPostMessage 7 "amino-gym-v2"].
Proof. apply (message_get_version version_query). reflexivity. Defined.

Lemma message_listener_other_example :
  message_listener skip_message = Returned [CallSkipWaiting].
Proof. apply (message_listener_other skip_message). reflexivity. Defined.

Lemma clearOldCaches_keeps_only_v1_example :
  storage_cache CACHE_NAME
    (storage (clearOldCaches true (world_of visited_storage)).2) = None.
Proof.
  apply (clearOldCaches_keeps_only_v1 (world_of visited_storage)).
  unfold current_caches. repeat constructor.
Defined.

Lemma memoize_reuses_first_result_example :
  memoized example_stringify example_fn ArgUndefined
    (memo_after example_stringify example_fn [ArgNum 3]
       (memoized example_stringify example_fn ArgNull memo_empty).2)
  = (Returned "null",
     memo_after example_stringify example_fn [ArgNum 3]
       (memoized example_stringify example_fn ArgNull memo_empty).2).
Proof.
  apply (memoize_reuses_first_result example_stringify example_fn memo_empty
           ArgNull ArgUndefined "[null]" "null" [ArgNum 3]); reflexivity.
Defined.

Lemma memoize_agrees_with_fn_example :
  (memoized bool_stringify bool_fn true
     (memo_after bool_stringify bool_fn [false; true; false] memo_empty)).1
  = Returned false.
Proof.
  apply (memoize_agrees_with_fn bool_stringify bool_fn [false; true; false] true).
  intros [] [] k [= <-] [=]; reflexivity.
Defined.

Lemma debounce_burst_example :
  invoked (debounce_run 300
             (typing_burst ++ [Call 100 "amy"] ++ [Fire 150 0; Fire 500 2])
             debounce_init)
    = invoked (debounce_run 300 typing_burst debounce_init) ∨
  ∃ t', 100 + timer_delay 300 ≤ t' ∧
    invoked (debounce_run 300
               (typing_burst ++ [Call 100 "amy"] ++ [Fire 150 0; Fire 500 2])
               debounce_init)
    = invoked (debounce_run 300 typing_burst debounce_init) ++ [(t', "amy")].
Proof.
  apply (debounce_burst 300 typing_burst 100 "amy" [Fire 150 0; Fire 500 2]).
  repeat constructor.
Defined.




Lemma push_non_object_payload_example :
  ∃ options,
    push_listener offline string_push (world_of [])
    = (Fulfilled tt,
       {| storage := []; spawned := [];
          effects := [ShowNotification (Some (JStr "Amino Gym")) options] |}) ∧
    n_body options = default_notificationData !! "body" ∧
    n_icon options = Some (JStr "/yacin-gym-logo.png") ∧
    n_badge options = Some (JStr "/yacin-gym-logo.png") ∧
    data_url (n_data options) = JStr "/".
Proof.
  apply (push_non_object_payload offline string_push (world_of [])
           {| text := "hello"; json := Some (JStr "hello") |} (JStr "hello"));
    [reflexivity | reflexivity | discriminate].
Defined.

Lemma chunkFileNames_flat_example :
  ∃ name,
    chunkFileNames None = "js/" +:+ name +:+ "-[hash].js" ∧ name = "chunk".
Proof.
  destruct (chunkFileNames_flat None) as (name & Hname & _ & Hchunk).
  exists name. split; [exact Hname|]. apply Hchunk. by left.
Defined.

Lemma chunkFileNames_module_example :
  chunkFileNames (Some "/app/src/components/home.tsx") = "js/home-[hash].js".
Proof.
  apply (chunkFileNames_module "/app/src/components" "home"); reflexivity.
Defined.
